(** * nnrecommend.dataset: the interaction table

    A shallow embedding of [nnrecommend/dataset/__init__.py] (class
    [Dataset]) and a verification of its id normalisation, negative
    sampling, test-set extraction, adjacency matrix and low-degree
    filtering.

    Conventions of the embedding:
    - the private 2-d numpy array [__interactions] is a list of rows, each
      row a [list Z], together with its column count [shape1] (numpy keeps
      the column count even when there are no rows);
    - in-place updates of the array are explicit state passing;
    - Python exceptions (failed [assert], [IndexError], [ValueError]) are
      [None];
    - [np.random.randint] reads a tape of raw draws, and the unbounded
      [while] loops of the sampler take fuel. *)

From stdpp Require Import base numbers list sorting gmap.

Local Open Scope Z_scope.

(** ** numpy and bisect helpers *)

(** [np.sort] on a one-dimensional integer array. *)
Definition np_sort (l : list Z) : list Z := merge_sort Z.le l.

(** Adjacent duplicates of a sorted array are masked out. *)
Fixpoint drop_repeats (l : list Z) : list Z :=
  match l with
  | [] => []
  | x :: t =>
      match t with
      | [] => [x]
      | y :: _ => if decide (x = y) then drop_repeats t else x :: drop_repeats t
      end
  end.

(** [np.unique]: sort, then keep one element of every run. *)
Definition np_unique (l : list Z) : list Z := drop_repeats (np_sort l).

(** [a[:, i]] on the list of rows. *)
Definition column (i : nat) (rows : list (list Z)) : list Z :=
  (λ r, r !!! i) <$> rows.

(** The loop of [bisect.bisect_left(a, x)]:
    [while lo < hi: mid = (lo+hi)//2; if a[mid] < x: lo = mid+1 else: hi = mid]. *)
Fixpoint bisect_loop (fuel : nat) (a : list Z) (x : Z) (lo hi : nat) : nat :=
  match fuel with
  | O => lo
  | S fuel' =>
      if decide (lo < hi)%nat then
        let mid := ((lo + hi) / 2)%nat in
        if decide (a !!! mid < x)
        then bisect_loop fuel' a x (mid + 1)%nat hi
        else bisect_loop fuel' a x lo mid
      else lo
  end.

(** [hi - lo] shrinks at every iteration, so [len(a)] iterations suffice. *)
Definition bisect_left (a : list Z) (x : Z) : nat :=
  bisect_loop (length a) a x 0 (length a).

(** ** The dataset *)

Record Dataset := mkDataset {
  shape1 : nat;                    (* __interactions.shape[1] *)
  interactions : list (list Z);    (* __interactions, row by row *)
  idrange : option (list Z)        (* None until normalize_ids *)
}.

(** What [Dataset.__init__] establishes: a rectangular array with at least
    three columns. *)
Definition rectangular (d : Dataset) : Prop :=
  Forall (λ r, length r = shape1 d) (interactions d).

Definition well_formed (d : Dataset) : Prop :=
  (2 < shape1 d)%nat ∧ rectangular d.

(** [Dataset.__init__] on a list of rows of width [w]: a label column of ones
    is appended to a two-column array; fewer than three columns afterwards is
    an assertion failure. *)
Definition Dataset_init (w : nat) (rows : list (list Z)) : option Dataset :=
  let '(w', rows') :=
    if decide (w = 2%nat) then (3%nat, (λ r, r ++ [1]) <$> rows) else (w, rows) in
  if decide (2 < w')%nat then Some (mkDataset w' rows' None) else None.

(** The local [find] of [normalize_ids]. *)
Definition normalize_find (container : list Z) (val : Z) : Z :=
  let idx := bisect_left container val in
  if decide (Z.of_nat idx < 0 ∨ (length container ≤ idx)%nat
             ∨ container !!! idx ≠ val)
  then -1 else Z.of_nat idx.

(** The local [find] of [denormalize_ids]. *)
Definition denormalize_find (container : list Z) (val : Z) : Z :=
  if decide (val < 0 ∨ Z.of_nat (length container) ≤ val)
  then -1 else container !!! Z.to_nat val.

(** [__remove_negative_ids]: keep the rows whose first two cells are
    non-negative. *)
Definition keeps_row (r : list Z) : Prop := Forall (λ v, 0 ≤ v) (take 2 r).

Definition remove_negative_ids (rows : list (list Z)) : list (list Z) :=
  filter keeps_row rows.

(** The mapping [normalize_ids] derives when none is given. *)
Definition derive_mapping (d : Dataset) : list (list Z) :=
  (λ i, np_sort (np_unique (column i (interactions d))))
    <$> seq 0 (shape1 d - 1).

(** The double loop of [normalize_ids] from column [i] on, with the running
    offset [diff]: column by column, every row's cell is replaced and
    [idrange[i]] is written. *)
Fixpoint normalize_columns (mapping : list (list Z)) (i : nat) (diff : Z)
    (rows : list (list Z)) (idr : list Z) : list (list Z) * list Z :=
  match mapping with
  | [] => (rows, idr)
  | colmapping :: rest =>
      let rows' :=
        (λ r, <[i := normalize_find colmapping (r !!! i) + diff]> r) <$> rows in
      let diff' := diff + Z.of_nat (length colmapping) in
      normalize_columns rest (S i) diff' rows' (<[i := diff']> idr)
  end.

(** [normalize_ids(mapping, remove_missing)]: the updated dataset and the
    mapping that was used; [None] when an assertion fails. *)
Definition normalize_ids (mapping : option (list (list Z)))
    (remove_missing : bool) (d : Dataset) : option (Dataset * list (list Z)) :=
  mapping' ←
    match mapping with
    | None => Some (derive_mapping d)
    | Some m => if decide ((length m + 1)%nat = shape1 d) then Some m else None
    end;
  let '(rows, idr) :=
    normalize_columns mapping' 0 0 (interactions d)
      (replicate (length mapping') 0) in
  let rows' := if remove_missing then remove_negative_ids rows else rows in
  Some (mkDataset (shape1 d) rows' (Some idr), mapping').

(** The double loop of [denormalize_ids]. *)
Fixpoint denormalize_columns (mapping : list (list Z)) (i : nat) (diff : Z)
    (rows : list (list Z)) : list (list Z) :=
  match mapping with
  | [] => rows
  | colmapping :: rest =>
      let rows' :=
        (λ r, <[i := denormalize_find colmapping (r !!! i - diff)]> r) <$> rows in
      denormalize_columns rest (S i) (diff + Z.of_nat (length colmapping)) rows'
  end.

(** [denormalize_ids(mapping, remove_missing)]. *)
Definition denormalize_ids (mapping : list (list Z)) (remove_missing : bool)
    (d : Dataset) : option Dataset :=
  if decide (length mapping = (shape1 d - 1)%nat) then
    let rows := denormalize_columns mapping 0 0 (interactions d) in
    let rows' := if remove_missing then remove_negative_ids rows else rows in
    Some (mkDataset (shape1 d) rows' None)
  else None.

(** The guard [if self.idrange is None: self.normalize_ids()]. *)
Definition ensure_normalized (d : Dataset) : option Dataset :=
  match idrange d with
  | Some _ => Some d
  | None => fst <$> normalize_ids None true d
  end.

(** ** Negative sampling *)

(** [np.random.randint(minv, maxv)]: the next raw draw of the tape, brought
    into [[minv, maxv)]; an empty range raises [ValueError], and no result is
    produced once the tape is used up. *)
Definition randint (minv maxv : Z) (tape : list Z) : option (Z * list Z) :=
  match tape with
  | [] => None
  | r :: tape' =>
      if decide (minv < maxv) then Some (minv + r `mod` (maxv - minv), tape')
      else None
  end.

(** [while v is None or v == row[i]: v = randint(minv, maxv)]. *)
Fixpoint draw_other (fuel : nat) (minv maxv avoid : Z) (tape : list Z)
    : option (Z * list Z) :=
  match fuel with
  | O => None
  | S fuel' =>
      '(v, tape') ← randint minv maxv tape;
      if decide (v = avoid) then draw_other fuel' minv maxv avoid tape'
      else Some (v, tape')
  end.

(** The [for i in range(1, nrow.shape[0]-1)] loop of
    [get_random_negative_row], over the remaining columns [cols]. *)
Fixpoint redraw_columns (fuel : nat) (idr row : list Z) (cols : list nat)
    (nrow tape : list Z) : option (list Z * list Z) :=
  match cols with
  | [] => Some (nrow, tape)
  | i :: cols' =>
      '(v, tape') ← draw_other fuel (idr !!! (i - 1)%nat) (idr !!! i) (row !!! i) tape;
      redraw_columns fuel idr row cols' (<[i := v]> nrow) tape'
  end.

(** [get_random_negative_row(row)], for [idrange = idr]. *)
Definition get_random_negative_row (fuel : nat) (idr row tape : list Z)
    : option (list Z * list Z) :=
  if decide (length idr ≤ length row)%nat then
    let nrow := <[0%nat := row !!! 0%nat]> (replicate (length idr + 1) 0) in
    redraw_columns fuel idr row (seq 1 (length idr - 1)) nrow tape
  else None.

(** [itertools.combinations(l, 2)]. *)
Fixpoint combinations2 (l : list Z) : list (Z * Z) :=
  match l with
  | [] => []
  | x :: t => ((λ y, (x, y)) <$> t) ++ combinations2 t
  end.

(** [__row_comb_in_container(row, container)]; the container is any object
    with [__contains__], here its membership test. *)
Definition row_comb_in_container (container : Z * Z → bool) (row : list Z)
    : bool :=
  existsb container (combinations2 (take (length row - 1) row)).

(** [while nrow is None or self.__row_comb_in_container(nrow, container)]. *)
Fixpoint sample_negative_row (fuel budget : nat) (container : Z * Z → bool)
    (idr row tape : list Z) : option (list Z * list Z) :=
  match fuel with
  | O => None
  | S fuel' =>
      '(nrow, tape') ← get_random_negative_row budget idr row tape;
      if row_comb_in_container container nrow
      then sample_negative_row fuel' budget container idr row tape'
      else Some (nrow, tape')
  end.

(** [get_random_negative_rows(container, row, num)]. *)
Fixpoint get_random_negative_rows (fuel : nat) (container : Z * Z → bool)
    (idr row : list Z) (num : nat) (tape : list Z)
    : option (list (list Z) * list Z) :=
  match num with
  | O => Some ([], tape)
  | S num' =>
      '(nrow, tape') ← sample_negative_row fuel fuel container idr row tape;
      '(nrows, tape'') ← get_random_negative_rows fuel container idr row num' tape';
      Some (nrow :: nrows, tape'')
  end.

(** [np.repeat(a, n, axis=0)]. *)
Definition np_repeat (n : nat) (rows : list (list Z)) : list (list Z) :=
  r ← rows; replicate n r.

(** The [for i, row in enumerate(self.__interactions)] loop of
    [add_negative_sampling]: the slice [data[1+n*i : n*(i+1), :]] is
    overwritten by the [num] sampled rows, whose width [len(idrange) + 1]
    has to be the width of [data]. *)
Fixpoint fill_negatives (fuel : nat) (container : Z * Z → bool) (idr : list Z)
    (w num : nat) (rows : list (list Z)) (i : nat) (data : list (list Z))
    (tape : list Z) : option (list (list Z) * list Z) :=
  match rows with
  | [] => Some (data, tape)
  | row :: rest =>
      '(nrows, tape') ← get_random_negative_rows fuel container idr row num tape;
      if decide ((length idr + 1)%nat = w) then
        fill_negatives fuel container idr w num rest (S i)
          (list_inserts (1 + (num + 1) * i) nrows data) tape'
      else None
  end.

(** [add_negative_sampling(container, num)]: the updated dataset and the rest
    of the tape. *)
Definition add_negative_sampling (fuel : nat) (container : Z * Z → bool)
    (num : Z) (d : Dataset) (tape : list Z) : option (Dataset * list Z) :=
  if decide (num ≤ 0) then Some (d, tape)
  else
    idr ← idrange d;
    let n := (Z.to_nat num + 1)%nat in
    let data := np_repeat n (interactions d) in
    '(data', tape') ←
      fill_negatives fuel container idr (shape1 d) (Z.to_nat num)
        (interactions d) 0 data tape;
    Some (mkDataset (shape1 d) data' (idrange d), tape').

(** ** Test-set extraction *)

(** [rowsbyuser], a dict in insertion order: user -> indices of its rows. *)
Fixpoint dict_append (u : Z) (i : nat) (dict : list (Z * list nat))
    : list (Z * list nat) :=
  match dict with
  | [] => [(u, [i])]
  | (k, userrows) :: rest =>
      if decide (k = u) then (k, userrows ++ [i]) :: rest
      else (k, userrows) :: dict_append u i rest
  end.

(** [row[-1]]. *)
Definition label (row : list Z) : Z := row !!! (length row - 1)%nat.

(** The first loop of [extract_test_dataset], from row index [i] on. *)
Fixpoint rows_by_user (rows : list (list Z)) (i : nat)
    (dict : list (Z * list nat)) : list (Z * list nat) :=
  match rows with
  | [] => dict
  | row :: rest =>
      if decide (label row ≤ 0) then rows_by_user rest (S i) dict
      else rows_by_user rest (S i) (dict_append (row !!! 0%nat) i dict)
  end.

(** The slice [userrows[-num:]]; [-0] is [0], so [num = 0] selects all. *)
Definition slice_last (num : nat) (userrows : list nat) : list nat :=
  if decide (num = 0%nat) then userrows
  else drop (length userrows - num) userrows.

(** The second loop of [extract_test_dataset]. *)
Definition extracted_rows (num min_keep : nat) (dict : list (Z * list nat))
    : list nat :=
  '(_, userrows) ← dict;
  if decide (length userrows < num + min_keep)%nat then []
  else slice_last num userrows.

(** [a[rows]] for a list of row indices. *)
Definition np_index (rows : list nat) (a : list (list Z)) : list (list Z) :=
  (λ i, a !!! i) <$> rows.

(** [np.delete(a, rows, axis=0)], from row index [i] on. *)
Fixpoint np_delete (rows : list nat) (i : nat) (a : list (list Z))
    : list (list Z) :=
  match a with
  | [] => []
  | r :: rest =>
      if decide (i ∈ rows) then np_delete rows (S i) rest
      else r :: np_delete rows (S i) rest
  end.

(** [extract_test_dataset(num_user_interactions, min_keep_user_interactions)]:
    the test set and the updated dataset. *)
Definition extract_test_dataset (num min_keep : nat) (d : Dataset)
    : option (Dataset * Dataset) :=
  d0 ← ensure_normalized d;
  let rows := extracted_rows num min_keep (rows_by_user (interactions d0) 0 []) in
  testset ← Dataset_init (shape1 d0) (np_index rows (interactions d0));
  Some (mkDataset (shape1 testset) (interactions testset) (idrange d0),
        mkDataset (shape1 d0) (np_delete rows 0 (interactions d0)) (idrange d0)).

(** ** Adjacency matrix *)

(** A [scipy.sparse] matrix in dictionary-of-keys form: its shape and the
    stored entries; an absent key reads as 0. *)
Record spmatrix := mkMatrix {
  mrows : Z;
  mcols : Z;
  entries : gmap (Z * Z) Z
}.

Definition mget (m : spmatrix) (a b : Z) : Z := default 0 (entries m !! (a, b)).

(** Index validation of numpy and scipy: out of range is an [IndexError], a
    negative index counts from the end. *)
Definition check_index (size i : Z) : option Z :=
  if decide (-size ≤ i < size) then Some (if decide (i < 0) then i + size else i)
  else None.

(** [matrix[i, j] = v]. *)
Definition mset (m : spmatrix) (i j v : Z) : option spmatrix :=
  i' ← check_index (mrows m) i;
  j' ← check_index (mcols m) j;
  Some (mkMatrix (mrows m) (mcols m) (<[(i', j') := v]> (entries m))).

(** The loop of [create_adjacency_matrix]. *)
Fixpoint fill_matrix (rows : list (list Z)) (m : spmatrix) : option spmatrix :=
  match rows with
  | [] => Some m
  | row :: rest =>
      let user := row !!! 0%nat in
      let item := row !!! 1%nat in
      m1 ← mset m user item 1;
      m2 ← mset m1 item user 1;
      fill_matrix rest m2
  end.

(** [create_adjacency_matrix()]: the matrix and the (possibly normalised)
    dataset. *)
Definition create_adjacency_matrix (d : Dataset) : option (spmatrix * Dataset) :=
  d0 ← ensure_normalized d;
  idr ← idrange d0;
  size ← idr !! 1%nat;
  m ← fill_matrix (interactions d0) (mkMatrix size size ∅);
  Some (m, d0).

(** ** Low-degree filtering *)

(** [np.asarray(matrix.sum(0)).flatten()]: the sum of every column. *)
Definition column_sum (m : spmatrix) (j : Z) : Z :=
  foldr Z.add 0 ((λ i, mget m i j) <$> seqZ 0 (mrows m)).

Definition matrix_sum0 (m : spmatrix) : list Z :=
  column_sum m <$> seqZ 0 (mcols m).

(** [counts[id]] inside the fancy index [counts[ids]]. *)
Definition np_take (counts : list Z) (id : Z) : option Z :=
  k ← check_index (Z.of_nat (length counts)) id;
  counts !! Z.to_nat k.

(** [a[cond]] for a boolean mask. *)
Fixpoint np_mask (cond : list bool) (a : list (list Z)) : list (list Z) :=
  match cond, a with
  | c :: cond', r :: a' => if c then r :: np_mask cond' a' else np_mask cond' a'
  | _, _ => []
  end.

(** [__remove_low(matrix, lim, idx)]: the count of dropped rows and the
    updated dataset. *)
Definition remove_low_idx (m : spmatrix) (lim : Z) (idx : nat) (d : Dataset)
    : option (nat * Dataset) :=
  d0 ← ensure_normalized d;
  let counts := matrix_sum0 m in
  cond ← mapM (λ r, c ← np_take counts (r !!! idx); Some (bool_decide (lim < c)))
         (interactions d0);
  Some (length (filter (λ c, c = false) cond),
        mkDataset (shape1 d0) (np_mask cond (interactions d0)) (idrange d0)).

Definition remove_low_users (m : spmatrix) (lim : Z) (d : Dataset) :=
  remove_low_idx m lim 0 d.

Definition remove_low_items (m : spmatrix) (lim : Z) (d : Dataset) :=
  remove_low_idx m lim 1 d.


(** ** The earlier dataset class, [nnrecommend/dataset.py]

    It keeps users and items apart by shifting the ids instead of ranking
    them: [iddiff] is added to the first two columns, [idsize] holds the
    bounds of the shifted ids.  The label is column 2. *)

Module DatasetPy.

Record Dataset := mkDataset {
  shape1 : nat;
  interactions : list (list Z);
  iddiff : Z * Z;
  idsize : Z * Z
}.

(** [np.min] and [np.max] of a column; an empty column is a [ValueError]. *)
Definition np_min (l : list Z) : option Z :=
  match l with
  | [] => None
  | x :: t => Some (foldr Z.min x t)
  end.

Definition np_max (l : list Z) : option Z :=
  match l with
  | [] => None
  | x :: t => Some (foldr Z.max x t)
  end.

(** [interactions[:, :2] += iddiff] on one row. *)
Definition shift_row (diff : Z * Z) (r : list Z) : list Z :=
  <[1%nat := r !!! 1%nat + diff.2]> (<[0%nat := r !!! 0%nat + diff.1]> r).

(** [Dataset.__init__(interactions, iddiff)] on rows of width [w]. *)
Definition init (w : nat) (rows : list (list Z)) (given : option (list Z))
    : option Dataset :=
  let '(w', rows') :=
    if decide (w = 2%nat) then (3%nat, (λ r, r ++ [1]) <$> rows) else (w, rows) in
  if decide (2 < w')%nat then
    umin ← np_min (column 0 rows');
    imin ← np_min (column 1 rows');
    umax ← np_max (column 0 rows');
    imax ← np_max (column 1 rows');
    diff ← match given with
           | None => Some (- umin, - imin + (umax - umin + 1))
           | Some [a; b] => Some (a, b)
           | Some _ => None
           end;
    Some (mkDataset w' (shift_row diff <$> rows') diff
            (umax + diff.1 + 1, imax + diff.2 + 1))
  else None.

(** The [while] loop of [get_random_negative_item], entered with the draw
    [j]. *)
Fixpoint negative_item_loop (fuel : nat) (d : Dataset) (user item : Z)
    (container : Z * Z → bool) (j : Z) (tape : list Z) : option (Z * list Z) :=
  match fuel with
  | O => None
  | S fuel' =>
      if bool_decide (j = item) || container (user, j) then
        '(j', tape') ← randint (idsize d).1 (idsize d).2 tape;
        negative_item_loop fuel' d user item container j' tape'
      else Some (j, tape)
  end.

(** [get_random_negative_item(user, item, container)]. *)
Definition get_random_negative_item (fuel : nat) (d : Dataset) (user item : Z)
    (container : Z * Z → bool) (tape : list Z) : option (Z * list Z) :=
  '(j, tape') ← randint (idsize d).1 (idsize d).2 tape;
  negative_item_loop fuel d user item container j tape'.

(** The negative row written for [row]: a copy with the item [j] and label
    0. *)
Definition negative_row (row : list Z) (j : Z) : list Z :=
  <[2%nat := 0]> (<[1%nat := j]> row).

(** The inner loop [for _ in range(num)] of [add_negative_sampling], writing
    from index [i] on. *)
Fixpoint write_negatives (fuel : nat) (d : Dataset) (container : Z * Z → bool)
    (row : list Z) (num i : nat) (data : list (list Z)) (tape : list Z)
    : option (nat * list (list Z) * list Z) :=
  match num with
  | O => Some (i, data, tape)
  | S num' =>
      '(j, tape') ←
        get_random_negative_item fuel d (row !!! 0%nat) (row !!! 1%nat) container tape;
      write_negatives fuel d container row num' (S i)
        (<[i := negative_row row j]> data) tape'
  end.

(** The outer loop [for row in self.__interactions]. *)
Fixpoint write_rows (fuel : nat) (d : Dataset) (container : Z * Z → bool)
    (num : nat) (rows : list (list Z)) (i : nat) (data : list (list Z))
    (tape : list Z) : option (list (list Z) * list Z) :=
  match rows with
  | [] => Some (data, tape)
  | row :: rest =>
      '(i', data', tape') ←
        write_negatives fuel d container row num (S i) (<[i := row]> data) tape;
      write_rows fuel d container num rest i' data' tape'
  end.

(** [add_negative_sampling(container, num)]. *)
Definition add_negative_sampling (fuel : nat) (container : Z * Z → bool)
    (num : Z) (d : Dataset) (tape : list Z) : option (Dataset * list Z) :=
  if decide (num ≤ 0) then Some (d, tape)
  else
    let data :=
      replicate (length (interactions d) * (Z.to_nat num + 1))
                (replicate (shape1 d) 0) in
    '(data', tape') ←
      write_rows fuel d container (Z.to_nat num) (interactions d) 0 data tape;
    Some (mkDataset (shape1 d) data' (iddiff d) (idsize d), tape').

(** [create_adjacency_matrix()]. *)
Definition create_adjacency_matrix (d : Dataset) : option spmatrix :=
  fill_matrix (interactions d) (mkMatrix (idsize d).2 (idsize d).2 ∅).

End DatasetPy.

(** ** Vocabulary of the statements *)

(** The total width of the first [k] columns of a mapping: the offset
    [diff] when the loops reach column [k]. *)
Definition cumwidth (mapping : list (list Z)) (k : nat) : Z :=
  foldr (λ c acc, Z.of_nat (length c) + acc) 0 (take k mapping).

(** What the double loop of [normalize_ids] does to one row. *)
Fixpoint normalize_row (mapping : list (list Z)) (i : nat) (diff : Z)
    (r : list Z) : list Z :=
  match mapping with
  | [] => r
  | colmapping :: rest =>
      normalize_row rest (S i) (diff + Z.of_nat (length colmapping))
        (<[i := normalize_find colmapping (r !!! i) + diff]> r)
  end.

(** What the double loop of [denormalize_ids] does to one row. *)
Fixpoint denormalize_row (mapping : list (list Z)) (i : nat) (diff : Z)
    (r : list Z) : list Z :=
  match mapping with
  | [] => r
  | colmapping :: rest =>
      denormalize_row rest (S i) (diff + Z.of_nat (length colmapping))
        (<[i := denormalize_find colmapping (r !!! i - diff)]> r)
  end.

(** The sub-range of ids owned by column [i]: from the bound of the column
    before it (0 for the first column) up to its own bound. *)
Definition column_lo (idr : list Z) (i : nat) : Z :=
  match i with
  | O => 0
  | S k => idr !!! k
  end.

Definition in_subrange (idr : list Z) (i : nat) (z : Z) : Prop :=
  column_lo idr i ≤ z < idr !!! i.

(** A normalised table: [idrange] is set, has one bound per entity column,
    and every entity cell lies in the sub-range of its column. *)
Definition normalized (d : Dataset) (idr : list Z) : Prop :=
  idrange d = Some idr ∧ (length idr + 1)%nat = shape1 d ∧
  ∀ r i, r ∈ interactions d → (i < length idr)%nat →
         in_subrange idr i (r !!! i).

(** Two ids are linked by a table when some row has them, in either order,
    in its user and item columns. *)
Definition links (a b : Z) (r : list Z) : Prop :=
  (a = r !!! 0%nat ∧ b = r !!! 1%nat) ∨ (a = r !!! 1%nat ∧ b = r !!! 0%nat).

Definition linked (rows : list (list Z)) (a b : Z) : Prop :=
  Exists (links a b) rows.

(** The degree [__remove_low] reads for a row: the column sum of the matrix
    at the id in column [idx] of the row. *)
Definition degree (m : spmatrix) (idx : nat) (r : list Z) : Z :=
  column_sum m (r !!! idx).

(** The outcome of [__remove_low] on the table [d0]: exactly the rows of
    degree above [lim] are left, in their order, and [n] rows are gone. *)
Definition low_rows_removed (m : spmatrix) (lim : Z) (idx : nat) (d0 : Dataset)
    (n : nat) (d' : Dataset) : Prop :=
  interactions d' = filter (λ r, lim < degree m idx r) (interactions d0) ∧
  (n + length (interactions d'))%nat = length (interactions d0) ∧
  shape1 d' = shape1 d0 ∧ idrange d' = idrange d0.

(** The indices below [n] of the positive rows of user [u], in table
    order. *)
Definition positives (rows : list (list Z)) (u : Z) (n : nat) : list nat :=
  filter (λ i, 0 < label (rows !!! i) ∧ (rows !!! i) !!! 0%nat = u) (seq 0 n).

(** [rowsbyuser.get(u, [])]. *)
Fixpoint dict_get (u : Z) (dict : list (Z * list nat)) : list nat :=
  match dict with
  | [] => []
  | (k, userrows) :: rest => if decide (k = u) then userrows else dict_get u rest
  end.

(** What one user contributes to the test set. *)
Definition user_extract (num min_keep : nat) (userrows : list nat) : list nat :=
  if decide (length userrows < num + min_keep)%nat then []
  else slice_last num userrows.


(** What [get_random_negative_row] guarantees of a row [nrow] sampled for
    [row]: the width of the table, the user of [row], label 0, and in every
    other entity column a value of that column's range that differs from the
    one [row] has there. *)
Definition negative_shape (idr row nrow : list Z) : Prop :=
  length nrow = (length idr + 1)%nat ∧
  nrow !!! 0%nat = row !!! 0%nat ∧
  nrow !!! length idr = 0 ∧
  ∀ j, (1 ≤ j < length idr)%nat →
       nrow !!! j ≠ row !!! j ∧ idr !!! (j - 1)%nat ≤ nrow !!! j < idr !!! j.

(** A row accepted by [get_random_negative_rows]: moreover, no pair of its
    entity cells is in the container. *)
Definition negative_of (container : Z * Z → bool) (idr row nrow : list Z)
    : Prop :=
  negative_shape idr row nrow ∧ row_comb_in_container container nrow = false.

(** The row indices [extract_test_dataset] moves out of the table [d0]. *)
Definition extracted_indices (num min_keep : nat) (d0 : Dataset) : list nat :=
  extracted_rows num min_keep (rows_by_user (interactions d0) 0 []).


(** ** Example tables *)

(** Three interactions of two users with two items, all positive. *)
Definition small_table : Dataset :=
  mkDataset 3 [[0; 0; 1]; [0; 1; 1]; [1; 0; 1]] None.

(** Raw ids that are neither dense nor sorted. *)
Definition raw_table : Dataset :=
  mkDataset 3 [[10; 50; 1]; [7; 50; 1]; [10; 30; 1]; [7; 30; 1]] None.

(** One interaction whose item, 7, is not in the mapping it is normalised
    with. *)
Definition stray_table : Dataset := mkDataset 3 [[0; 7; 1]] None.

Definition stray_mapping : list (list Z) := [[0]; [0]].

(** Two interactions with one context column, before and after
    normalisation. *)
Definition context_raw : Dataset :=
  mkDataset 4 [[0; 0; 0; 1]; [1; 1; 1; 1]] None.

Definition context_table : Dataset :=
  mkDataset 4 [[0; 2; 4; 1]; [1; 3; 5; 1]] (Some [2; 4; 6]).

(** A matrix in which user 0 has no entry and user 1 has one, and a table
    with a row of each. *)
Definition lonely_matrix : spmatrix := mkMatrix 4 4 {[ (3, 1) := 1 ]}.

Definition lonely_table : Dataset :=
  mkDataset 3 [[0; 2; 1]; [1; 3; 1]; [0; 3; 1]] (Some [2; 4]).

(** The links of [context_table] as a container, and a tape of draws. *)
Definition context_links : Z * Z → bool :=
  λ p, bool_decide (p ∈ [(0, 2); (2, 0); (1, 3); (3, 1)]).

Definition context_tape : list Z := [1; 1; 1; 1; 0; 0; 0; 0].

(** Two interactions, the second one of a user the mapping
    [stray_mapping] does not know. *)
Definition guest_table : Dataset := mkDataset 3 [[0; 7; 1]; [5; 0; 1]] None.

(** Raw ids below zero. *)
Definition signed_table : Dataset :=
  mkDataset 3 [[-4; 50; 1]; [7; 50; 1]; [7; -30; 1]; [9; 30; 1]] None.

(** Two users and a single item. *)
Definition single_item_table : Dataset :=
  mkDataset 3 [[0; 2; 1]; [1; 2; 1]] (Some [2; 3]).

(** Interactions of three users, with a negative row in between. *)
Definition history_table : Dataset :=
  mkDataset 3
    [[0; 3; 1]; [1; 3; 1]; [0; 4; 1]; [0; 5; 0]; [2; 4; 1]; [0; 5; 1]; [1; 4; 1]]
    (Some [3; 6]).

(** Raw rows for the earlier class, with a feature column after the
    label. *)
Definition shifted_rows : list (list Z) :=
  [[10; 50; 1; 8]; [12; 51; 1; 9]; [10; 53; 1; 7]].

(** What the earlier class makes of [shifted_rows], the links of its rows
    and a tape of draws. *)
Definition shifted_table : DatasetPy.Dataset :=
  DatasetPy.mkDataset 4 [[0; 3; 1; 8]; [2; 4; 1; 9]; [0; 6; 1; 7]]
    (-10, -47) (3, 7).


Definition shifted_tape : list Z := [0; 1; 2; 3; 4; 5; 6].

(** A user linked to every item but one, which is the item of its row. *)
Definition crowded_table : DatasetPy.Dataset :=
  DatasetPy.mkDataset 3 [[0; 1; 1]] (0, 0) (1, 3).

Definition crowded_links : Z * Z → bool :=
  λ p, bool_decide (p ∈ [(0, 2)]).

(** * Verification *)

(** ** Sorting, uniqueness and binary search *)

Lemma np_sort_sorted l : StronglySorted Z.le (np_sort l).
Proof. apply (StronglySorted_merge_sort Z.le). Qed.

Lemma np_sort_elem x l : x ∈ np_sort l ↔ x ∈ l.
Proof. unfold np_sort. by rewrite merge_sort_Permutation. Qed.

Lemma np_sort_id l : StronglySorted Z.le l → np_sort l = l.
Proof.
  intros Hl. apply (StronglySorted_unique Z.le).
  - apply np_sort_sorted.
  - done.
  - apply merge_sort_Permutation.
Qed.

Lemma drop_repeats_cons2 a b t :
  drop_repeats (a :: b :: t) =
  if decide (a = b) then drop_repeats (b :: t) else a :: drop_repeats (b :: t).
Proof. done. Qed.

Lemma drop_repeats_elem x l : x ∈ drop_repeats l ↔ x ∈ l.
Proof.
  induction l as [|a t IH]; [done|].
  destruct t as [|b t]; [done|].
  rewrite drop_repeats_cons2. case_decide as Hab.
  - subst b. rewrite IH, !elem_of_cons. tauto.
  - by rewrite (elem_of_cons (drop_repeats (b :: t))), IH, (elem_of_cons (b :: t)).
Qed.

Lemma drop_repeats_sorted l :
  StronglySorted Z.le l → StronglySorted Z.lt (drop_repeats l).
Proof.
  induction l as [|a t IH]; intros Hs; [constructor|].
  destruct t as [|b t]; [repeat constructor|].
  apply StronglySorted_inv in Hs as [Hs Ha].
  rewrite drop_repeats_cons2.
  case_decide as Hab; [by apply IH|].
  constructor; [by apply IH|].
  apply Forall_forall. intros x Hx. rewrite drop_repeats_elem in Hx.
  apply StronglySorted_inv in Hs as [Hs Hb].
  apply Forall_cons in Ha as [Hab' Ha].
  apply elem_of_cons in Hx as [->|Hx]; [lia|].
  rewrite Forall_forall in Hb. specialize (Hb _ Hx). lia.
Qed.

Lemma lt_sorted_le_sorted l : StronglySorted Z.lt l → StronglySorted Z.le l.
Proof.
  induction 1 as [|a l Hs IH Ha]; constructor; [done|].
  eapply Forall_impl; [exact Ha|]. simpl. lia.
Qed.

(** The array [np.sort(np.unique(ids))] is strictly increasing and holds
    exactly the values of [ids]. *)
Lemma sort_unique_sorted l : StronglySorted Z.lt (np_sort (np_unique l)).
Proof.
  assert (Hs : StronglySorted Z.lt (np_unique l))
    by apply drop_repeats_sorted, np_sort_sorted.
  rewrite np_sort_id; [done|]. by apply lt_sorted_le_sorted.
Qed.

Lemma sort_unique_elem x l : x ∈ np_sort (np_unique l) ↔ x ∈ l.
Proof. unfold np_unique. by rewrite np_sort_elem, drop_repeats_elem, np_sort_elem. Qed.

(** Reading a strictly increasing array by index. *)
Lemma sorted_lookup_lt (a : list Z) i j x y :
  StronglySorted Z.lt a → a !! i = Some x → a !! j = Some y →
  (i < j)%nat → x < y.
Proof.
  intros Hs. revert i j. induction Hs as [|h t Hs IH Hh]; intros i j Hi Hj Hij.
  - done.
  - destruct j as [|j]; [lia|]. simpl in Hj. destruct i as [|i].
    + simpl in Hi. injection Hi as <-. rewrite Forall_forall in Hh.
      apply Hh. by eapply list_elem_of_lookup_2.
    + simpl in Hi. apply (IH i j); [done..|lia].
Qed.

(** The loop invariant of [bisect_left]: everything left of [lo] is smaller
    than [x], everything from [hi] on is at least [x]. *)
Lemma bisect_loop_spec fuel (a : list Z) x lo hi :
  StronglySorted Z.lt a →
  (lo ≤ hi ≤ length a)%nat → (hi - lo ≤ fuel)%nat →
  (∀ k y, (k < lo)%nat → a !! k = Some y → y < x) →
  (∀ k y, (hi ≤ k)%nat → a !! k = Some y → x ≤ y) →
  (bisect_loop fuel a x lo hi ≤ length a)%nat ∧
  (∀ k y, (k < bisect_loop fuel a x lo hi)%nat → a !! k = Some y → y < x) ∧
  (∀ k y, (bisect_loop fuel a x lo hi ≤ k)%nat → a !! k = Some y → x ≤ y).
Proof.
  intros Hs. revert lo hi.
  induction fuel as [|fuel IH]; intros lo hi Hb Hf Hlo Hhi; cbn [bisect_loop].
  - assert (lo = hi) as -> by lia. split; [lia|]. eauto.
  - case_decide as Hlt; [|assert (lo = hi) as -> by lia; split; [lia|eauto]].
    set (mid := ((lo + hi) / 2)%nat).
    assert (Hmid : (lo ≤ mid < hi)%nat).
    { subst mid. split.
      - apply Nat.div_le_lower_bound; lia.
      - apply Nat.Div0.div_lt_upper_bound; lia. }
    fold mid.
    destruct (lookup_lt_is_Some_2 a mid) as [v Hv]; [lia|].
    rewrite (list_lookup_total_correct _ _ _ Hv).
    case_decide as Hvx.
    + apply IH; [lia|lia| |done].
      intros k y Hk Hy. destruct (decide (k = mid)) as [->|Hne].
      * congruence.
      * assert (y < v) by (eapply (sorted_lookup_lt a k mid); eauto; lia). lia.
    + apply IH; [lia|lia|done|].
      intros k y Hk Hy. destruct (decide (k = mid)) as [->|Hne].
      * assert (y = v) by congruence. lia.
      * assert (v < y) by (eapply (sorted_lookup_lt a mid k); eauto; lia). lia.
Qed.

(** On a strictly increasing array, [bisect_left] finds the position of every
    value the array holds. *)
Lemma bisect_left_found (a : list Z) x :
  StronglySorted Z.lt a → x ∈ a →
  a !! bisect_left a x = Some x.
Proof.
  intros Hs Hx. unfold bisect_left.
  destruct (bisect_loop_spec (length a) a x 0 (length a) Hs) as (Hr & Hlt & Hge);
    [lia|lia|intros; lia|..].
  { intros k y Hk Hy. apply lookup_lt_Some in Hy. lia. }
  set (r := bisect_loop (length a) a x 0 (length a)) in *.
  apply list_elem_of_lookup in Hx as [k Hk].
  destruct (decide (k < r)%nat) as [Hkr|Hkr].
  { specialize (Hlt _ _ Hkr Hk). lia. }
  destruct (decide (k = r)) as [->|Hne]; [done|].
  assert (Hrl : (r < length a)%nat) by (apply lookup_lt_Some in Hk; lia).
  destruct (lookup_lt_is_Some_2 a r Hrl) as [v Hv].
  assert (x ≤ v) by (eapply Hge; [|exact Hv]; lia).
  assert (v < x) by (eapply (sorted_lookup_lt a r k); eauto; lia). lia.
Qed.

(** [find] of [normalize_ids] on a value of a sorted mapping: a position of
    the mapping, where the value is stored. *)
Lemma normalize_find_found (a : list Z) x :
  StronglySorted Z.lt a → x ∈ a →
  0 ≤ normalize_find a x < Z.of_nat (length a) ∧
  a !! Z.to_nat (normalize_find a x) = Some x.
Proof.
  intros Hs Hx. pose proof (bisect_left_found a x Hs Hx) as Hb.
  unfold normalize_find. pose proof (lookup_lt_Some _ _ _ Hb) as Hlt.
  rewrite (list_lookup_total_correct _ _ _ Hb).
  case_decide as Hc; [lia|]. rewrite Nat2Z.id. split; [lia|done].
Qed.

(** [find] of [denormalize_ids] undoes it. *)
Lemma denormalize_find_found (a : list Z) x :
  StronglySorted Z.lt a → x ∈ a →
  denormalize_find a (normalize_find a x) = x.
Proof.
  intros Hs Hx. destruct (normalize_find_found a x Hs Hx) as [Hr Hl].
  unfold denormalize_find. case_decide; [lia|].
  by apply list_lookup_total_correct.
Qed.

(** ** The column loops, row by row *)

Lemma cumwidth_0 m : cumwidth m 0 = 0.
Proof. done. Qed.

Lemma cumwidth_cons c m k :
  cumwidth (c :: m) (S k) = Z.of_nat (length c) + cumwidth m k.
Proof. done. Qed.

Lemma cumwidth_S m k c :
  m !! k = Some c → cumwidth m (S k) = cumwidth m k + Z.of_nat (length c).
Proof.
  revert k. induction m as [|c' m IH]; intros k Hk; [done|].
  destruct k as [|k].
  - injection Hk as ->. rewrite cumwidth_cons, !cumwidth_0. lia.
  - rewrite !cumwidth_cons, (IH k Hk). lia.
Qed.

Lemma cumwidth_mono m k k' : (k ≤ k')%nat → cumwidth m k ≤ cumwidth m k'.
Proof.
  revert k k'. induction m as [|c m IH]; intros k k' Hk.
  - unfold cumwidth. by rewrite !take_nil.
  - destruct k as [|k].
    + rewrite cumwidth_0. clear Hk. destruct k' as [|k']; [done|].
      rewrite cumwidth_cons. specialize (IH 0%nat k'). rewrite cumwidth_0 in IH. lia.
    + destruct k' as [|k']; [lia|]. rewrite !cumwidth_cons.
      specialize (IH k k'). lia.
Qed.

Lemma cumwidth_nonneg m k : 0 ≤ cumwidth m k.
Proof. rewrite <- (cumwidth_0 m). apply cumwidth_mono. lia. Qed.

Lemma normalize_columns_rows m i diff rows idr :
  (normalize_columns m i diff rows idr).1 = normalize_row m i diff <$> rows.
Proof.
  revert i diff rows idr. induction m as [|c m IH]; intros i diff rows idr; simpl.
  - by rewrite list_fmap_id.
  - rewrite IH, <- list_fmap_compose. done.
Qed.

Lemma denormalize_columns_rows m i diff rows :
  denormalize_columns m i diff rows = denormalize_row m i diff <$> rows.
Proof.
  revert i diff rows. induction m as [|c m IH]; intros i diff rows; simpl.
  - by rewrite list_fmap_id.
  - rewrite IH, <- list_fmap_compose. done.
Qed.

Lemma normalize_row_length m i diff r :
  length (normalize_row m i diff r) = length r.
Proof.
  revert i diff r. induction m as [|c m IH]; intros i diff r; simpl; [done|].
  by rewrite IH, length_insert.
Qed.

Lemma denormalize_row_length m i diff r :
  length (denormalize_row m i diff r) = length r.
Proof.
  revert i diff r. induction m as [|c m IH]; intros i diff r; simpl; [done|].
  by rewrite IH, length_insert.
Qed.

(** Cells outside the columns of the mapping are not touched. *)
Lemma normalize_row_lookup_other m i diff r j :
  (j < i ∨ i + length m ≤ j)%nat →
  normalize_row m i diff r !! j = r !! j.
Proof.
  revert i diff r. induction m as [|c m IH]; intros i diff r Hj; simpl; [done|].
  rewrite IH by (simpl in Hj; lia).
  apply list_lookup_insert_ne. simpl in Hj. lia.
Qed.

Lemma denormalize_row_lookup_other m i diff r j :
  (j < i ∨ i + length m ≤ j)%nat →
  denormalize_row m i diff r !! j = r !! j.
Proof.
  revert i diff r. induction m as [|c m IH]; intros i diff r Hj; simpl; [done|].
  rewrite IH by (simpl in Hj; lia).
  apply list_lookup_insert_ne. simpl in Hj. lia.
Qed.

(** A cell of column [i + k] becomes its rank in that column's mapping plus
    the width of the columns before it. *)
Lemma normalize_row_lookup m i diff r k c :
  m !! k = Some c → (i + k < length r)%nat →
  normalize_row m i diff r !! (i + k)%nat =
    Some (normalize_find c (r !!! (i + k)%nat) + (diff + cumwidth m k)).
Proof.
  revert i diff r k. induction m as [|c' m IH]; intros i diff r k Hk Hlen; [done|].
  destruct k as [|k]; simpl.
  - injection Hk as ->. rewrite Nat.add_0_r in *.
    rewrite normalize_row_lookup_other by lia.
    rewrite list_lookup_insert_eq by done. rewrite cumwidth_0. f_equal. lia.
  - simpl in Hk. replace (i + S k)%nat with (S i + k)%nat by lia.
    rewrite (IH (S i) _ _ k Hk) by (rewrite length_insert; lia).
    rewrite list_lookup_total_insert_ne by lia.
    rewrite cumwidth_cons. f_equal. lia.
Qed.

Lemma denormalize_row_lookup m i diff r k c :
  m !! k = Some c → (i + k < length r)%nat →
  denormalize_row m i diff r !! (i + k)%nat =
    Some (denormalize_find c (r !!! (i + k)%nat - (diff + cumwidth m k))).
Proof.
  revert i diff r k. induction m as [|c' m IH]; intros i diff r k Hk Hlen; [done|].
  destruct k as [|k]; simpl.
  - injection Hk as ->. rewrite Nat.add_0_r in *.
    rewrite denormalize_row_lookup_other by lia.
    rewrite list_lookup_insert_eq by done. rewrite cumwidth_0. do 2 f_equal. lia.
  - simpl in Hk. replace (i + S k)%nat with (S i + k)%nat by lia.
    rewrite (IH (S i) _ _ k Hk) by (rewrite length_insert; lia).
    rewrite list_lookup_total_insert_ne by lia.
    rewrite cumwidth_cons. do 2 f_equal. lia.
Qed.

(** [idrange] after the loops: the cumulative widths. *)
Lemma normalize_columns_idrange_length m i diff rows idr :
  length (normalize_columns m i diff rows idr).2 = length idr.
Proof.
  revert i diff rows idr. induction m as [|c m IH]; intros i diff rows idr; simpl;
    [done|].
  by rewrite IH, length_insert.
Qed.

Lemma normalize_columns_idrange_other m i diff rows idr j :
  (j < i)%nat →
  (normalize_columns m i diff rows idr).2 !! j = idr !! j.
Proof.
  revert i diff rows idr. induction m as [|c m IH]; intros i diff rows idr Hj; simpl;
    [done|].
  rewrite IH by lia. apply list_lookup_insert_ne. lia.
Qed.

Lemma normalize_columns_idrange m i diff rows idr k :
  (k < length m)%nat → (i + k < length idr)%nat →
  (normalize_columns m i diff rows idr).2 !! (i + k)%nat =
    Some (diff + cumwidth m (S k)).
Proof.
  revert i diff rows idr k.
  induction m as [|c m IH]; intros i diff rows idr k Hk Hlen; simpl in *; [lia|].
  destruct k as [|k].
  - rewrite Nat.add_0_r in *. rewrite normalize_columns_idrange_other by lia.
    rewrite list_lookup_insert_eq by done.
    rewrite cumwidth_cons, cumwidth_0. f_equal. lia.
  - replace (i + S k)%nat with (S i + k)%nat by lia.
    rewrite IH by (rewrite ?length_insert; lia).
    rewrite (cumwidth_cons c m (S k)). f_equal. lia.
Qed.

(** ** The derived mapping *)

Lemma filter_all {A} (P : A → Prop) `{!∀ x, Decision (P x)} (l : list A) :
  Forall P l → filter P l = l.
Proof.
  induction 1 as [|x l Hx Hl IH]; [done|].
  by rewrite filter_cons_True, IH.
Qed.

Lemma derive_mapping_length d : length (derive_mapping d) = (shape1 d - 1)%nat.
Proof. unfold derive_mapping. by rewrite length_fmap, length_seq. Qed.

Lemma derive_mapping_lookup d k :
  (k < shape1 d - 1)%nat →
  derive_mapping d !! k = Some (np_sort (np_unique (column k (interactions d)))).
Proof.
  intros Hk. unfold derive_mapping.
  by rewrite list_lookup_fmap, lookup_seq_lt.
Qed.

Lemma column_elem r k rows : r ∈ rows → r !!! k ∈ column k rows.
Proof. intros Hr. unfold column. by apply (list_elem_of_fmap_2 (λ r, r !!! k)). Qed.

(** Every cell of an entity column is found in the derived mapping of its
    column, at a position that holds the cell's value. *)
Lemma derive_mapping_cell d r k :
  r ∈ interactions d → (k < shape1 d - 1)%nat →
  ∃ c, derive_mapping d !! k = Some c ∧ StronglySorted Z.lt c ∧ r !!! k ∈ c ∧
       0 ≤ normalize_find c (r !!! k) < Z.of_nat (length c) ∧
       denormalize_find c (normalize_find c (r !!! k)) = r !!! k.
Proof.
  intros Hr Hk. eexists. split; [by apply derive_mapping_lookup|].
  assert (Hs := sort_unique_sorted (column k (interactions d))).
  assert (He : r !!! k ∈ np_sort (np_unique (column k (interactions d))))
    by (apply sort_unique_elem; by apply column_elem).
  split; [done|]. split; [done|]. split.
  - by apply normalize_find_found.
  - by apply denormalize_find_found.
Qed.

Lemma rectangular_row d r : rectangular d → r ∈ interactions d → length r = shape1 d.
Proof. unfold rectangular. rewrite Forall_forall. auto. Qed.

(** The cell of column [k] after the normalisation loops. *)
Lemma normalize_derived_lookup d r k :
  well_formed d → r ∈ interactions d → (k < shape1 d - 1)%nat →
  ∃ c, derive_mapping d !! k = Some c ∧
       0 ≤ normalize_find c (r !!! k) < Z.of_nat (length c) ∧
       normalize_row (derive_mapping d) 0 0 r !!! k =
         normalize_find c (r !!! k) + cumwidth (derive_mapping d) k.
Proof.
  intros [Hw Hrect] Hr Hk.
  destruct (derive_mapping_cell d r k Hr Hk) as (c & Hc & _ & _ & Hb & _).
  exists c. split; [done|]. split; [done|].
  apply list_lookup_total_correct.
  pose proof (normalize_row_lookup (derive_mapping d) 0 0 r k c Hc) as Hl.
  simpl in Hl. rewrite Hl; [f_equal; lia|].
  rewrite (rectangular_row d r); [lia|done..].
Qed.

Lemma normalize_derived_keeps d r :
  well_formed d → r ∈ interactions d →
  keeps_row (normalize_row (derive_mapping d) 0 0 r).
Proof.
  intros Hwf Hr. unfold keeps_row. apply Forall_lookup. intros i x Hi.
  apply lookup_take_Some in Hi as [Hi Hi2].
  assert (Hk : (i < shape1 d - 1)%nat) by (destruct Hwf; lia).
  destruct (normalize_derived_lookup d r i Hwf Hr Hk) as (c & Hc & Hb & Hv).
  apply list_lookup_total_correct in Hi. rewrite Hv in Hi.
  pose proof (cumwidth_nonneg (derive_mapping d) i). lia.
Qed.

(** [normalize_ids()] without a mapping: it returns, uses the derived mapping,
    rewrites every row in place and drops none; [idrange] holds the cumulative
    widths. *)
Lemma normalize_ids_derived rm d :
  well_formed d →
  ∃ idr,
    normalize_ids None rm d =
      Some (mkDataset (shape1 d)
              (normalize_row (derive_mapping d) 0 0 <$> interactions d)
              (Some idr), derive_mapping d) ∧
    length idr = (shape1 d - 1)%nat ∧
    ∀ k, (k < shape1 d - 1)%nat →
         idr !! k = Some (cumwidth (derive_mapping d) (S k)).
Proof.
  intros Hwf. unfold normalize_ids. simpl.
  destruct (normalize_columns _ _ _ _ _) as [rows idr] eqn:E.
  assert (Hrows : rows = normalize_row (derive_mapping d) 0 0 <$> interactions d).
  { rewrite <- normalize_columns_rows with (idr := replicate (length (derive_mapping d)) 0).
    by rewrite E. }
  assert (Hidr : idr = (normalize_columns (derive_mapping d) 0 0 (interactions d)
                          (replicate (length (derive_mapping d)) 0)).2)
    by (by rewrite E).
  exists idr. split; [|split].
  - do 3 f_equal. destruct rm; [|done].
    unfold remove_negative_ids. rewrite Hrows. apply filter_all.
    apply Forall_forall. intros r' Hr'.
    apply list_elem_of_fmap in Hr' as (r & -> & Hr).
    by apply normalize_derived_keeps.
  - rewrite Hidr, normalize_columns_idrange_length, length_replicate.
    apply derive_mapping_length.
  - intros k Hk. rewrite Hidr.
    pose proof (normalize_columns_idrange (derive_mapping d) 0 0 (interactions d)
                  (replicate (length (derive_mapping d)) 0) k) as Hl.
    simpl in Hl. rewrite Hl; [f_equal; lia|..];
      rewrite ?length_replicate, derive_mapping_length; done.
Qed.

Lemma column_lo_derived d idr k :
  (∀ k, (k < shape1 d - 1)%nat →
        idr !! k = Some (cumwidth (derive_mapping d) (S k))) →
  (k < shape1 d)%nat →
  column_lo idr k = cumwidth (derive_mapping d) k.
Proof.
  intros Hidr Hk. destruct k as [|k]; [done|]. simpl.
  apply list_lookup_total_correct, Hidr. lia.
Qed.

(** ** Normalisation *)

(** The table [normalize_ids()] leaves behind is normalised, with bounds that
    grow from column to column. *)
Lemma normalize_ids_normalized rm d :
  well_formed d →
  ∃ d' idr,
    normalize_ids None rm d = Some (d', derive_mapping d) ∧
    shape1 d' = shape1 d ∧
    interactions d' = normalize_row (derive_mapping d) 0 0 <$> interactions d ∧
    normalized d' idr ∧
    (∀ i, (i < length idr)%nat → 0 ≤ column_lo idr i ≤ idr !!! i) ∧
    (∀ i j, (i ≤ j)%nat → (j < length idr)%nat → idr !!! i ≤ idr !!! j).
Proof.
  intros Hwf. destruct (normalize_ids_derived rm d Hwf) as (idr & Hn & Hlen & Hidr).
  assert (Hread : ∀ k, (k < shape1 d - 1)%nat →
                       idr !!! k = cumwidth (derive_mapping d) (S k)).
  { intros k Hk. apply list_lookup_total_correct. by apply Hidr. }
  eexists _, idr. split; [exact Hn|]. split; [done|]. split; [done|].
  split; [|split].
  - split; [done|]. split; [simpl; destruct Hwf; lia|].
    simpl. intros r' i Hr' Hi.
    apply list_elem_of_fmap in Hr' as (r & -> & Hr).
    rewrite Hlen in Hi.
    destruct (normalize_derived_lookup d r i Hwf Hr Hi) as (c & Hc & Hb & Hv).
    unfold in_subrange. rewrite Hv, (column_lo_derived d idr i Hidr) by lia.
    rewrite (Hread i Hi), (cumwidth_S _ _ _ Hc). lia.
  - intros i Hi. rewrite Hlen in Hi.
    rewrite (column_lo_derived d idr i Hidr) by lia. rewrite (Hread i Hi).
    split; [apply cumwidth_nonneg|apply cumwidth_mono; lia].
  - intros i j Hij Hj. rewrite Hlen in Hj.
    rewrite (Hread i), (Hread j) by lia. apply cumwidth_mono. lia.
Qed.

(** C2: after [normalize_ids()] without a mapping, every entity cell lies in
    [[0, idrange[last])] and in the half-open sub-range of its own column
    ([[idrange[i-1], idrange[i])], the first one starting at 0), and the
    sub-ranges of two distinct columns share no id. *)
Theorem normalize_ids_subranges (rm : bool) (d : Dataset) :
  well_formed d →
  ∃ d' m idr,
    normalize_ids None rm d = Some (d', m) ∧
    idrange d' = Some idr ∧ length idr = (shape1 d - 1)%nat ∧
    (∀ r i, r ∈ interactions d' → (i < length idr)%nat →
       in_subrange idr i (r !!! i) ∧
       0 ≤ r !!! i < idr !!! (length idr - 1)%nat) ∧
    (∀ i j z, (i < length idr)%nat → (j < length idr)%nat → i ≠ j →
       ¬ (in_subrange idr i z ∧ in_subrange idr j z)).
Proof.
  intros Hwf.
  destruct (normalize_ids_normalized rm d Hwf)
    as (d' & idr & Hn & Hw & Hrows & (Hidr & Hlen & Hin) & Hlo & Hmono).
  exists d', (derive_mapping d), idr.
  split; [done|]. split; [done|]. split; [lia|].
  assert (Hsep : ∀ i j, (i < j)%nat → (j < length idr)%nat →
                        idr !!! i ≤ column_lo idr j).
  { intros i [|j] Hij Hj; [lia|]. simpl. apply Hmono; lia. }
  split.
  - intros r i Hr Hi. split; [by apply Hin|].
    specialize (Hin r i Hr Hi). unfold in_subrange in Hin.
    specialize (Hlo i Hi).
    pose proof (Hmono i (length idr - 1)%nat ltac:(lia) ltac:(lia)). lia.
  - intros i j z Hi Hj Hne [[Hi1 Hi2] [Hj1 Hj2]].
    destruct (decide (i < j)%nat).
    + pose proof (Hsep i j ltac:(lia) Hj). lia.
    + pose proof (Hsep j i ltac:(lia) Hi). lia.
Qed.

Lemma normalize_ids_subranges_witness :
  well_formed raw_table ∧
  ∃ d' m idr,
    normalize_ids None true raw_table = Some (d', m) ∧
    idrange d' = Some idr ∧ length idr = (shape1 raw_table - 1)%nat ∧
    (∀ r i, r ∈ interactions d' → (i < length idr)%nat →
       in_subrange idr i (r !!! i) ∧
       0 ≤ r !!! i < idr !!! (length idr - 1)%nat) ∧
    (∀ i j z, (i < length idr)%nat → (j < length idr)%nat → i ≠ j →
       ¬ (in_subrange idr i z ∧ in_subrange idr j z)).
Proof.
  assert (H : well_formed raw_table) by (split; [simpl; lia|repeat constructor]).
  split; [exact H|]. exact (normalize_ids_subranges true raw_table H).
Defined.

(** A derived mapping is undone cell by cell. *)
Lemma denormalize_normalize_row d r :
  well_formed d → r ∈ interactions d →
  denormalize_row (derive_mapping d) 0 0 (normalize_row (derive_mapping d) 0 0 r) = r.
Proof.
  intros Hwf Hr. pose proof Hwf as [Hw Hrect].
  pose proof (rectangular_row d r Hrect Hr) as Hlen.
  apply list_eq. intros j.
  destruct (decide (j < shape1 d - 1)%nat) as [Hj|Hj].
  - destruct (derive_mapping_cell d r j Hr Hj) as (c & Hc & _ & _ & _ & Hback).
    destruct (normalize_derived_lookup d r j Hwf Hr Hj) as (c' & Hc' & _ & Hv).
    assert (c' = c) as -> by congruence.
    pose proof (denormalize_row_lookup (derive_mapping d) 0 0
                  (normalize_row (derive_mapping d) 0 0 r) j c Hc) as Hl.
    simpl in Hl. rewrite Hl by (rewrite normalize_row_length; lia).
    rewrite Hv. replace (_ + _ - _) with (normalize_find c (r !!! j)) by lia.
    rewrite Hback. symmetry. apply list_lookup_lookup_total_lt. lia.
  - rewrite denormalize_row_lookup_other, normalize_row_lookup_other
      by (rewrite derive_mapping_length; lia). done.
Qed.

(** C3: [normalize_ids()] followed by [denormalize_ids] with the mapping it
    returned and [remove_missing=False] gives back every row as it was: the
    entity cells hold their raw values again and the label is untouched. *)
Theorem normalize_denormalize_roundtrip (rm : bool) (d : Dataset) :
  well_formed d →
  ∃ d' m d'',
    normalize_ids None rm d = Some (d', m) ∧
    denormalize_ids m false d' = Some d'' ∧
    interactions d'' = interactions d ∧
    shape1 d'' = shape1 d ∧ idrange d'' = None.
Proof.
  intros Hwf.
  destruct (normalize_ids_normalized rm d Hwf)
    as (d' & idr & Hn & Hw & Hrows & _).
  exists d', (derive_mapping d). unfold denormalize_ids.
  rewrite decide_True by (rewrite derive_mapping_length; lia).
  eexists. split; [done|]. split; [done|]. simpl. split; [|done].
  rewrite denormalize_columns_rows, Hrows, <- list_fmap_compose.
  rewrite <- (list_fmap_id (interactions d)) at 2.
  apply Forall_fmap_ext_1, Forall_forall. intros r Hr. simpl.
  by apply denormalize_normalize_row.
Qed.

Lemma normalize_denormalize_roundtrip_witness :
  well_formed raw_table ∧
  ∃ d' m d'',
    normalize_ids None true raw_table = Some (d', m) ∧
    denormalize_ids m false d' = Some d'' ∧
    interactions d'' = interactions raw_table ∧
    shape1 d'' = shape1 raw_table ∧ idrange d'' = None.
Proof.
  assert (H : well_formed raw_table) by (split; [simpl; lia|repeat constructor]).
  split; [exact H|]. exact (normalize_denormalize_roundtrip true raw_table H).
Defined.

(** C10: without an explicit mapping, the derived mapping of every column
    holds every raw value of that column, so no lookup returns the missing
    sentinel and no row is dropped, even with [remove_missing=True]. *)
Theorem normalize_ids_derived_complete (d : Dataset) :
  well_formed d →
  ∃ d' m,
    normalize_ids None true d = Some (d', m) ∧ m = derive_mapping d ∧
    (∀ r i, r ∈ interactions d → (i < shape1 d - 1)%nat →
       ∃ c, m !! i = Some c ∧ r !!! i ∈ c ∧ normalize_find c (r !!! i) ≠ -1) ∧
    length (interactions d') = length (interactions d).
Proof.
  intros Hwf.
  destruct (normalize_ids_normalized true d Hwf)
    as (d' & idr & Hn & Hw & Hrows & _).
  exists d', (derive_mapping d). split; [done|]. split; [done|]. split.
  - intros r i Hr Hi.
    destruct (derive_mapping_cell d r i Hr Hi) as (c & Hc & _ & He & Hb & _).
    exists c. split; [done|]. split; [done|]. lia.
  - by rewrite Hrows, length_fmap.
Qed.

Lemma normalize_ids_derived_complete_witness :
  well_formed raw_table ∧
  ∃ d' m,
    normalize_ids None true raw_table = Some (d', m) ∧
    m = derive_mapping raw_table ∧
    (∀ r i, r ∈ interactions raw_table → (i < shape1 raw_table - 1)%nat →
       ∃ c, m !! i = Some c ∧ r !!! i ∈ c ∧ normalize_find c (r !!! i) ≠ -1) ∧
    length (interactions d') = length (interactions raw_table).
Proof.
  assert (H : well_formed raw_table) by (split; [simpl; lia|repeat constructor]).
  split; [exact H|]. exact (normalize_ids_derived_complete raw_table H).
Defined.

(** C4, as the code has it: on the rows [(0,0,1), (0,1,1), (1,0,1)] the two
    items take the ids 2 and 3, so [idrange] is [[2, 4]]; the rows become
    [(0,2,1), (0,3,1), (1,2,1)]. *)
Theorem normalize_ids_small_table :
  normalize_ids None true small_table =
    Some (mkDataset 3 [[0; 2; 1]; [0; 3; 1]; [1; 2; 1]] (Some [2; 4]),
          [[0; 1]; [0; 1]]).
Proof. vm_compute. reflexivity. Qed.

(** C4 as stated asks for [idrange = [2, 5]]: the code does not give it. *)
Lemma small_table_idrange_counterexample :
  (idrange ∘ fst) <$> normalize_ids None true small_table ≠ Some (Some [2; 5]).
Proof. vm_compute. discriminate. Qed.

(** A value the mapping of its column does not hold: [find] answers -1, and
    the cell receives -1 plus the offset of the column. *)
Lemma normalize_find_missing (c : list Z) x : x ∉ c → normalize_find c x = -1.
Proof.
  intros Hx. unfold normalize_find. case_decide as Hc; [done|].
  exfalso. apply Hx. apply (list_elem_of_lookup_2 _ (bisect_left c x)).
  rewrite list_lookup_lookup_total_lt by lia.
  f_equal. destruct (decide (c !!! bisect_left c x = x)); [done|tauto].
Qed.

Lemma normalize_row_missing m r k c :
  m !! k = Some c → (k < length r)%nat → r !!! k ∉ c →
  normalize_row m 0 0 r !!! k = cumwidth m k - 1.
Proof.
  intros Hc Hk Hx. apply list_lookup_total_correct.
  pose proof (normalize_row_lookup m 0 0 r k c Hc) as Hl. simpl in Hl.
  rewrite Hl by done. rewrite (normalize_find_missing c _ Hx). f_equal. lia.
Qed.

(** The context table is what [normalize_ids()] makes of its raw form. *)
Example normalize_ids_context_raw :
  normalize_ids None true context_raw =
    Some (context_table, [[0; 1]; [0; 1]; [0; 1]]).
Proof. by vm_compute. Qed.

(** C6, at a mapping that misses the item: the lookup answers -1, the loop
    adds the offset of the item column to it, the cell becomes 0 (the id of a
    user) and the row stays although [remove_missing] is set. *)
Theorem normalize_ids_stray_item :
  normalize_find [0] 7 = -1 ∧
  normalize_ids (Some stray_mapping) true stray_table =
    Some (mkDataset 3 [[0; 0; 1]] (Some [1; 2]), stray_mapping).
Proof. vm_compute. split; reflexivity. Qed.

(** ** Adjacency matrix *)

Lemma check_index_in_range size i :
  0 ≤ i < size → check_index size i = Some i.
Proof.
  intros Hi. unfold check_index.
  rewrite decide_True by lia. by rewrite decide_False by lia.
Qed.

Lemma mset_in_range m i j v :
  0 ≤ i < mrows m → 0 ≤ j < mcols m →
  mset m i j v = Some (mkMatrix (mrows m) (mcols m) (<[(i, j) := v]> (entries m))).
Proof.
  intros Hi Hj. unfold mset.
  by rewrite (check_index_in_range _ _ Hi), (check_index_in_range _ _ Hj).
Qed.

Lemma links_sym a b r : links a b r → links b a r.
Proof. unfold links. tauto. Qed.

Lemma linked_sym rows a b : linked rows a b → linked rows b a.
Proof.
  unfold linked. rewrite !Exists_exists. intros (r & Hr & Hl).
  exists r. split; [done|]. by apply links_sym.
Qed.

(** The loop of [create_adjacency_matrix]: it keeps the shape, writes a 1 for
    every linked pair and leaves every other entry alone. *)
Lemma fill_matrix_spec rows m :
  Forall (λ r, 0 ≤ r !!! 0%nat < mrows m ∧ 0 ≤ r !!! 0%nat < mcols m ∧
               0 ≤ r !!! 1%nat < mrows m ∧ 0 ≤ r !!! 1%nat < mcols m) rows →
  ∃ m', fill_matrix rows m = Some m' ∧
        mrows m' = mrows m ∧ mcols m' = mcols m ∧
        ∀ a b, mget m' a b =
               if decide (linked rows a b) then 1 else mget m a b.
Proof.
  revert m. induction rows as [|r rows IH]; intros m Hrows.
  - exists m. split; [done|]. split; [done|]. split; [done|].
    intros a b. rewrite decide_False; [done|]. unfold linked.
    rewrite Exists_nil. tauto.
  - apply Forall_cons in Hrows as [(Hu1 & Hu2 & Hi1 & Hi2) Hrows].
    cbn [fill_matrix]. rewrite mset_in_range by done. cbn [mbind option_bind].
    rewrite mset_in_range by done. cbn [mbind option_bind].
    set (m2 := mkMatrix _ _ _).
    destruct (IH m2 Hrows) as (m' & Hm' & Hr' & Hc' & Hget).
    exists m'. split; [done|]. split; [done|]. split; [done|].
    intros a b. rewrite Hget. unfold linked. 
    destruct (decide (Exists (links a b) rows)) as [Hl|Hl].
    { rewrite decide_True; [done|]. by apply Exists_cons_tl. }
    unfold mget, m2. simpl.
    destruct (decide (links a b r)) as [Hab|Hab].
    + rewrite decide_True by (by apply Exists_cons_hd).
      destruct Hab as [[-> ->]|[-> ->]].
      * destruct (decide ((r !!! 1%nat, r !!! 0%nat) = (r !!! 0%nat, r !!! 1%nat)))
          as [He|He].
        -- rewrite He. by rewrite lookup_insert_eq.
        -- rewrite lookup_insert_ne by done. by rewrite lookup_insert_eq.
      * by rewrite lookup_insert_eq.
    + rewrite decide_False by (rewrite Exists_cons; tauto).
      unfold links in Hab.
      rewrite !lookup_insert_ne; [done|..]; intros [= H1 H2]; apply Hab; auto.
Qed.

(** C5, as the code has it: for a normalised table,
    [create_adjacency_matrix()] returns a square matrix of size [idrange[1]]
    (the bound of the item column, which is the last bound only when there
    is no context column); the matrix is symmetric, holds a 1 at (user, item)
    and (item, user) of every row, and 0 everywhere else. *)
Theorem create_adjacency_matrix_spec (d : Dataset) (idr : list Z) :
  well_formed d → normalized d idr →
  ∃ m, create_adjacency_matrix d = Some (m, d) ∧
       mrows m = idr !!! 1%nat ∧ mcols m = idr !!! 1%nat ∧
       (∀ a b, mget m a b = mget m b a) ∧
       (∀ a b, mget m a b = if decide (linked (interactions d) a b) then 1 else 0).
Proof.
  intros [Hw Hrect] (Hidr & Hlen & Hin).
  unfold create_adjacency_matrix, ensure_normalized.
  rewrite Hidr. cbn [mbind option_bind]. rewrite Hidr. cbn [mbind option_bind].
  destruct (lookup_lt_is_Some_2 idr 1) as [size Hsize]; [lia|].
  rewrite Hsize. cbn [mbind option_bind]. rewrite (list_lookup_total_correct _ _ _ Hsize).
  destruct (fill_matrix_spec (interactions d) (mkMatrix size size ∅))
    as (m & Hm & Hr & Hc & Hget).
  { apply Forall_forall. intros r Hr. simpl.
    pose proof (Hin r 0%nat Hr ltac:(lia)) as H0.
    pose proof (Hin r 1%nat Hr ltac:(lia)) as H1.
    unfold in_subrange in H0, H1. simpl in H0, H1.
    rewrite (list_lookup_total_correct _ _ _ Hsize) in H1. lia. }
  rewrite Hm. cbn [mbind option_bind]. exists m.
  split; [done|]. split; [done|]. split; [done|].
  assert (Hget' : ∀ a b, mget m a b =
                         if decide (linked (interactions d) a b) then 1 else 0).
  { intros a b. rewrite Hget. by case_decide. }
  split; [|done].
  intros a b. rewrite !Hget'.
  destruct (decide (linked (interactions d) a b)) as [Hl|Hl].
  - rewrite decide_True; [done|]. by apply linked_sym.
  - rewrite decide_False; [done|]. intros Hl'. by apply Hl, linked_sym.
Qed.

Lemma normalized_intro d idr :
  idrange d = Some idr → (length idr + 1)%nat = shape1 d →
  Forall (λ r, Forall (λ i, in_subrange idr i (r !!! i)) (seq 0 (length idr)))
         (interactions d) →
  normalized d idr.
Proof.
  intros Hidr Hlen Hall. split; [done|]. split; [done|].
  intros r i Hr Hi. rewrite Forall_forall in Hall. specialize (Hall r Hr).
  rewrite Forall_forall in Hall. apply Hall. apply elem_of_seq. lia.
Qed.

Lemma context_table_normalized : normalized context_table [2; 4; 6].
Proof.
  apply normalized_intro; [done..|].
  repeat constructor; unfold in_subrange; simpl; lia.
Qed.

Lemma context_table_well_formed : well_formed context_table.
Proof. split; [simpl; lia|repeat constructor]. Qed.

Lemma create_adjacency_matrix_spec_witness :
  ∃ m, create_adjacency_matrix context_table = Some (m, context_table) ∧
       mrows m = [2; 4; 6] !!! 1%nat ∧ mcols m = [2; 4; 6] !!! 1%nat ∧
       (∀ a b, mget m a b = mget m b a) ∧
       (∀ a b, mget m a b =
               if decide (linked (interactions context_table) a b) then 1 else 0).
Proof.
  exact (create_adjacency_matrix_spec context_table [2; 4; 6]
           context_table_well_formed context_table_normalized).
Defined.

(** C5 as stated asks for a matrix of size [idrange[last]]: with a context
    column the last bound is 6 and the matrix is 4 by 4. *)
Lemma create_adjacency_matrix_size_counterexample :
  normalized context_table [2; 4; 6] ∧
  ∃ m, create_adjacency_matrix context_table = Some (m, context_table) ∧
       mrows m = 4 ∧ mrows m ≠ [2; 4; 6] !!! 2%nat.
Proof.
  split; [apply context_table_normalized|].
  eexists. split; [vm_compute; reflexivity|]. by vm_compute.
Qed.

(** ** Low-degree filtering *)

Lemma matrix_sum0_lookup m j :
  0 ≤ j < mcols m → matrix_sum0 m !! Z.to_nat j = Some (column_sum m j).
Proof.
  intros Hj. unfold matrix_sum0.
  rewrite list_lookup_fmap, lookup_seqZ_lt by lia. simpl. f_equal. f_equal. lia.
Qed.

Lemma np_take_counts m id :
  0 ≤ id < mcols m → np_take (matrix_sum0 m) id = Some (column_sum m id).
Proof.
  intros Hid. unfold np_take.
  assert (Hlen : Z.of_nat (length (matrix_sum0 m)) = mcols m).
  { unfold matrix_sum0. rewrite length_fmap, length_seqZ. lia. }
  rewrite Hlen, check_index_in_range by done. simpl.
  by apply matrix_sum0_lookup.
Qed.

(** The mask [counts[ids] > lim] and what it selects. *)
Lemma remove_low_mask m lim idx rows :
  Forall (λ r, 0 ≤ r !!! idx < mcols m) rows →
  ∃ cond,
    mapM (λ r, c ← np_take (matrix_sum0 m) (r !!! idx); Some (bool_decide (lim < c)))
         rows = Some cond ∧
    np_mask cond rows = filter (λ r, lim < degree m idx r) rows ∧
    (length (filter (λ c, c = false) cond) +
     length (filter (λ r, (lim < degree m idx r)%Z) rows))%nat = length rows.
Proof.
  induction 1 as [|r rows Hr Hrows IH].
  - exists []. done.
  - destruct IH as (cond & Hcond & Hmask & Hcount).
    exists (bool_decide (lim < degree m idx r) :: cond).
    split; [|split].
    + cbn [mapM]. rewrite (np_take_counts m _ Hr). cbn [mbind option_bind].
      rewrite Hcond. done.
    + cbn [np_mask]. rewrite filter_cons.
      destruct (decide (lim < degree m idx r)) as [Hd|Hd].
      * rewrite bool_decide_true by done. by rewrite Hmask.
      * rewrite bool_decide_false by done. done.
    + rewrite !filter_cons.
      destruct (decide (lim < degree m idx r)) as [Hd|Hd].
      * rewrite bool_decide_true by done. rewrite decide_False by done.
        simpl. lia.
      * rewrite bool_decide_false by done. rewrite decide_True by done.
        simpl. lia.
Qed.

Lemma remove_low_idx_spec m lim idx d d0 :
  ensure_normalized d = Some d0 →
  Forall (λ r, 0 ≤ r !!! idx < mcols m) (interactions d0) →
  ∃ n d', remove_low_idx m lim idx d = Some (n, d') ∧
          low_rows_removed m lim idx d0 n d'.
Proof.
  intros Hd0 Hrange. unfold remove_low_idx. rewrite Hd0. cbn [mbind option_bind].
  destruct (remove_low_mask m lim idx _ Hrange) as (cond & Hcond & Hmask & Hcount).
  rewrite Hcond. cbn [mbind option_bind].
  eexists _, _. split; [done|]. unfold low_rows_removed. simpl.
  rewrite Hmask. done.
Qed.



(** The example of C9, run: user 0 has degree 0 and loses both rows, user 1
    has degree 1 and keeps its row. *)
Example remove_low_users_lonely :
  degree lonely_matrix 0 [0; 2; 1] = 0 ∧ degree lonely_matrix 0 [1; 3; 1] = 1 ∧
  remove_low_users lonely_matrix 0 lonely_table =
    Some (2%nat, mkDataset 3 [[1; 3; 1]] (Some [2; 4])).
Proof. by vm_compute. Qed.

(** ** Test-set extraction *)

Lemma positives_S rows u n :
  positives rows u (S n) =
  positives rows u n ++
    (if decide (0 < label (rows !!! n) ∧ (rows !!! n) !!! 0%nat = u) then [n] else []).
Proof.
  unfold positives. rewrite seq_S, filter_app. f_equal.
Qed.

Lemma positives_user rows u n i :
  i ∈ positives rows u n → (rows !!! i) !!! 0%nat = u ∧ (i < n)%nat.
Proof.
  unfold positives. rewrite list_elem_of_filter, elem_of_seq. intros [[_ Hu] Hi].
  split; [done|lia].
Qed.

Lemma dict_append_keys u i dict k :
  k ∈ (dict_append u i dict).*1 ↔ k = u ∨ k ∈ dict.*1.
Proof.
  induction dict as [|[k0 l0] dict IH]; simpl.
  - rewrite list_elem_of_singleton, elem_of_nil. tauto.
  - case_decide as Hk; simpl; rewrite !elem_of_cons.
    + subst k0. tauto.
    + rewrite IH. tauto.
Qed.

Lemma dict_append_NoDup u i dict :
  NoDup dict.*1 → NoDup (dict_append u i dict).*1.
Proof.
  induction dict as [|[k0 l0] dict IH]; simpl; intros Hnd.
  - apply NoDup_singleton.
  - apply NoDup_cons in Hnd as [Hk0 Hnd]. case_decide as Hk; simpl.
    + by apply NoDup_cons.
    + apply NoDup_cons. split; [|by apply IH].
      rewrite dict_append_keys. intros [->|HIn]; done.
Qed.

Lemma dict_get_append u i dict k :
  dict_get k (dict_append u i dict) =
  if decide (k = u) then dict_get u dict ++ [i] else dict_get k dict.
Proof.
  induction dict as [|[k0 l0] dict IH]; simpl.
  - repeat case_decide; (done || congruence).
  - destruct (decide (k0 = u)) as [->|Hk0]; simpl.
    + repeat case_decide; (done || congruence).
    + rewrite IH. repeat case_decide; (done || congruence).
Qed.

Lemma dict_get_entry dict u l :
  NoDup dict.*1 → (u, l) ∈ dict → dict_get u dict = l.
Proof.
  induction dict as [|[k0 l0] dict IH]; simpl; intros Hnd Hin.
  - by apply elem_of_nil in Hin.
  - apply NoDup_cons in Hnd as [Hk0 Hnd].
    apply elem_of_cons in Hin as [[= <- <-]|Hin].
    + by rewrite decide_True.
    + rewrite decide_False; [by apply IH|].
      intros ->. apply Hk0. by apply (list_elem_of_fmap_2 fst _ (u, l)).
Qed.


(** The first loop: after it, the dict has one entry per user with a positive
    row, holding the indices of the user's positive rows in table order. *)
Lemma rows_by_user_spec pre rest dict :
  NoDup dict.*1 →
  (∀ u, dict_get u dict = positives (pre ++ rest) u (length pre)) →
  NoDup (rows_by_user rest (length pre) dict).*1 ∧
  ∀ u, dict_get u (rows_by_user rest (length pre) dict) =
       positives (pre ++ rest) u (length (pre ++ rest)).
Proof.
  revert pre dict. induction rest as [|r rest IH]; intros pre dict Hnd Hget.
  - simpl. rewrite app_nil_r in *. done.
  - cbn [rows_by_user].
    assert (Hfull : pre ++ r :: rest = (pre ++ [r]) ++ rest)
      by (by rewrite <- app_assoc).
    assert (Hlen : S (length pre) = length (pre ++ [r]))
      by (rewrite length_app; simpl; lia).
    assert (Hr : (pre ++ r :: rest) !!! length pre = r)
      by apply list_lookup_total_middle, eq_refl.
    rewrite Hlen, Hfull.
    case_decide as Hlab.
    + apply IH; [done|]. intros u. rewrite <- Hlen, <- Hfull, positives_S, Hr.
      rewrite decide_False by lia. rewrite app_nil_r. apply Hget.
    + apply IH; [by apply dict_append_NoDup|].
      intros u. rewrite <- Hlen, <- Hfull, positives_S, Hr, dict_get_append.
      destruct (decide (u = r !!! 0%nat)) as [->|Hu].
      * rewrite decide_True by (split; [lia|done]). by rewrite Hget.
      * rewrite decide_False by (intros [_ ?]; congruence).
        rewrite app_nil_r. apply Hget.
Qed.

Lemma user_extract_subset num mk l i : i ∈ user_extract num mk l → i ∈ l.
Proof.
  unfold user_extract, slice_last. repeat case_decide; try done.
  - by intros ?%elem_of_nil.
  - apply subseteq_drop.
Qed.

Lemma extracted_rows_cons num mk u l dict :
  extracted_rows num mk ((u, l) :: dict) =
  user_extract num mk l ++ extracted_rows num mk dict.
Proof. done. Qed.





(** [np.delete] keeps, in order, the rows whose index is not listed. *)
Lemma np_delete_spec idxs pre a :
  np_delete idxs (length pre) a =
  (λ j, (pre ++ a) !!! j) <$> filter (λ j, j ∉ idxs) (seq (length pre) (length a)).
Proof.
  revert pre. induction a as [|r a IH]; intros pre; [done|].
  cbn [np_delete length seq]. rewrite filter_cons.
  assert (Hfull : pre ++ r :: a = (pre ++ [r]) ++ a) by (by rewrite <- app_assoc).
  assert (Hlen : S (length pre) = length (pre ++ [r]))
    by (rewrite length_app; simpl; lia).
  assert (Hr : (pre ++ r :: a) !!! length pre = r)
    by apply list_lookup_total_middle, eq_refl.
  specialize (IH (pre ++ [r])). rewrite <- Hlen, <- Hfull in IH.
  destruct (decide (length pre ∈ idxs)) as [Hin|Hin].
  - rewrite decide_False by tauto. done.
  - rewrite decide_True by done. rewrite fmap_cons, Hr, IH. done.
Qed.

Lemma ensure_normalized_some d :
  well_formed d →
  ∃ d0, ensure_normalized d = Some d0 ∧ shape1 d0 = shape1 d ∧ well_formed d0.
Proof.
  intros Hwf. unfold ensure_normalized. destruct (idrange d) as [idr|] eqn:E.
  - by exists d.
  - destruct (normalize_ids_normalized true d Hwf)
      as (d' & idr & Hn & Hw & Hrows & _).
    exists d'. rewrite Hn. split; [done|]. split; [done|].
    destruct Hwf as [H2 Hrect]. split; [lia|].
    unfold rectangular. rewrite Hrows, Hw. apply Forall_fmap, Forall_forall.
    intros r Hr. simpl. rewrite normalize_row_length.
    by apply (rectangular_row d).
Qed.



(** The split of the small table: user 0 has two positive rows and gives the
    later one, user 1 has one and keeps it. *)
Example extract_test_dataset_small_table :
  extract_test_dataset 1 1 small_table =
    Some (mkDataset 3 [[0; 3; 1]] (Some [2; 4]),
          mkDataset 3 [[0; 2; 1]; [1; 2; 1]] (Some [2; 4])).
Proof. by vm_compute. Qed.

(** ** Negative sampling *)

Lemma randint_range minv maxv tape v tape' :
  randint minv maxv tape = Some (v, tape') → minv ≤ v < maxv.
Proof.
  unfold randint. destruct tape as [|r tape]; [done|].
  case_decide as Hlt; [|done]. intros [= <- <-].
  pose proof (Z.mod_pos_bound r (maxv - minv)). lia.
Qed.

Lemma draw_other_spec fuel minv maxv avoid tape v tape' :
  draw_other fuel minv maxv avoid tape = Some (v, tape') →
  minv ≤ v < maxv ∧ v ≠ avoid.
Proof.
  revert tape. induction fuel as [|fuel IH]; intros tape; simpl; [done|].
  destruct (randint minv maxv tape) as [[v0 tape0]|] eqn:E; simpl; [|done].
  case_decide as Hv; [apply IH|].
  intros [= <- <-]. split; [by eapply randint_range|done].
Qed.

(** The column loop writes the listed columns and nothing else. *)
Lemma redraw_columns_spec fuel idr row cols nrow tape nrow' tape' :
  redraw_columns fuel idr row cols nrow tape = Some (nrow', tape') →
  length nrow' = length nrow ∧
  (∀ j, j ∉ cols → nrow' !! j = nrow !! j) ∧
  (∀ j, j ∈ cols → (j < length nrow)%nat →
        nrow' !!! j ≠ row !!! j ∧
        idr !!! (j - 1)%nat ≤ nrow' !!! j < idr !!! j).
Proof.
  revert nrow tape. induction cols as [|i cols IH]; intros nrow tape; simpl.
  - intros [= <- <-]. split; [done|]. split; [done|].
    intros j Hj. by apply elem_of_nil in Hj.
  - destruct (draw_other _ _ _ _ _) as [[v tape1]|] eqn:E; simpl; [|done].
    intros Hrest. apply IH in Hrest as (Hlen & Hother & Hcols).
    rewrite length_insert in Hlen, Hcols.
    apply draw_other_spec in E as [Hrange Hne].
    split; [done|]. split.
    + intros j Hj. rewrite not_elem_of_cons in Hj. destruct Hj as [Hji Hj].
      rewrite (Hother j Hj). by apply list_lookup_insert_ne.
    + intros j Hj Hjlen. destruct (decide (j ∈ cols)) as [Hin|Hin]; [by apply Hcols|].
      apply elem_of_cons in Hj as [->|Hj]; [|done].
      assert (Hv : nrow' !!! i = v).
      { apply list_lookup_total_correct. rewrite (Hother i Hin).
        by apply list_lookup_insert_eq. }
      rewrite Hv. done.
Qed.

Lemma get_random_negative_row_spec fuel idr row tape nrow tape' :
  (0 < length idr)%nat →
  get_random_negative_row fuel idr row tape = Some (nrow, tape') →
  negative_shape idr row nrow.
Proof.
  intros Hidr. unfold get_random_negative_row. case_decide as Hlen; [|done].
  intros (Hl & Hother & Hcols)%redraw_columns_spec.
  rewrite length_insert, length_replicate in Hl, Hcols.
  split; [done|]. split; [|split].
  - apply list_lookup_total_correct. rewrite Hother.
    + apply list_lookup_insert_eq. rewrite length_replicate. lia.
    + rewrite elem_of_seq. lia.
  - apply list_lookup_total_correct. rewrite Hother.
    + rewrite list_lookup_insert_ne by lia. apply lookup_replicate_2. lia.
    + rewrite elem_of_seq. lia.
  - intros j Hj. apply Hcols; [|lia]. rewrite elem_of_seq. lia.
Qed.

Lemma sample_negative_row_spec fuel budget container idr row tape nrow tape' :
  (0 < length idr)%nat →
  sample_negative_row fuel budget container idr row tape = Some (nrow, tape') →
  negative_of container idr row nrow.
Proof.
  intros Hidr. revert tape. induction fuel as [|fuel IH]; intros tape; simpl; [done|].
  destruct (get_random_negative_row _ _ _ _) as [[nrow0 tape0]|] eqn:E; simpl;
    [|done].
  destruct (row_comb_in_container container nrow0) eqn:Ec; [apply IH|].
  intros [= <- <-]. split; [|done]. by eapply get_random_negative_row_spec.
Qed.

Lemma get_random_negative_rows_spec fuel container idr row num tape nrows tape' :
  (0 < length idr)%nat →
  get_random_negative_rows fuel container idr row num tape = Some (nrows, tape') →
  length nrows = num ∧ Forall (negative_of container idr row) nrows.
Proof.
  intros Hidr. revert tape nrows.
  induction num as [|num IH]; intros tape nrows; simpl.
  - intros [= <- <-]. done.
  - destruct (sample_negative_row _ _ _ _ _ _) as [[nrow tape1]|] eqn:E; simpl;
      [|done].
    destruct (get_random_negative_rows _ _ _ _ _ _) as [[rest tape2]|] eqn:E2;
      simpl; [|done].
    intros [= <- <-]. apply IH in E2 as [Hlen Hall]. split; [simpl; lia|].
    constructor; [|done]. by eapply sample_negative_row_spec.
Qed.

Lemma length_np_repeat n rows :
  length (np_repeat n rows) = (n * length rows)%nat.
Proof.
  unfold np_repeat. induction rows as [|r rows IH]; [simpl; lia|].
  rewrite bind_cons, length_app, length_replicate, IH. simpl. lia.
Qed.

Lemma lookup_np_repeat n rows i t :
  (t < n)%nat → np_repeat n rows !! (n * i + t)%nat = rows !! i.
Proof.
  intros Ht. unfold np_repeat. revert i.
  induction rows as [|r rows IH]; intros i; [done|].
  rewrite bind_cons. destruct i as [|i].
  - rewrite lookup_app_l by (rewrite length_replicate; lia).
    replace (n * 0 + t)%nat with t by lia. by apply lookup_replicate_2.
  - rewrite lookup_app_r by (rewrite length_replicate; lia).
    rewrite length_replicate.
    replace (n * S i + t - n)%nat with (n * i + t)%nat by lia. apply IH.
Qed.

(** The loop of [add_negative_sampling] from row [i] on: the blocks of the
    rows before [i] and the first row of every block are left alone, and the
    other rows of the blocks of [rest] become negatives of their row. *)
Lemma fill_negatives_spec fuel container idr w num rest i data tape data' tape' :
  (0 < length idr)%nat →
  ((num + 1) * (i + length rest) ≤ length data)%nat →
  fill_negatives fuel container idr w num rest i data tape = Some (data', tape') →
  length data' = length data ∧
  (∀ p, (p < (num + 1) * i)%nat → data' !! p = data !! p) ∧
  (∀ k, (k < length rest)%nat →
        data' !! ((num + 1) * (i + k))%nat = data !! ((num + 1) * (i + k))%nat) ∧
  (∀ k row t, rest !! k = Some row → (1 ≤ t ≤ num)%nat →
        ∃ nrow, data' !! ((num + 1) * (i + k) + t)%nat = Some nrow ∧
                negative_of container idr row nrow).
Proof.
  intros Hidr. revert i data tape.
  induction rest as [|row rest IH]; intros i data tape Hbound; simpl.
  - intros [= <- <-]. split; [done|]. split; [done|]. split.
    + intros k Hk. simpl in Hk. lia.
    + intros k row t Hk. done.
  - destruct (get_random_negative_rows _ _ _ _ _ _) as [[nrows tape1]|] eqn:E;
      simpl; [|done].
    case_decide as Hw; [|done]. intros Hrest.
    apply get_random_negative_rows_spec in E as [Hnum Hall]; [|done].
    simpl in Hbound.
    apply IH in Hrest as (Hlen & Hb & Hc & Hd);
      [|rewrite length_inserts; lia].
    rewrite length_inserts in Hlen.
    assert (Hmul : ∀ k, ((num + 1) * (i + S k) = (num + 1) * (S i + k))%nat)
      by (intros; f_equal; lia).
    assert (Hstep : ((num + 1) * S i = (num + 1) * i + num + 1)%nat) by lia.
    split; [done|]. split; [|split].
    + intros p Hp. rewrite Hb by lia. apply list_lookup_inserts_lt. lia.
    + intros [|k] Hk.
      * rewrite Nat.add_0_r. rewrite Hb by lia. apply list_lookup_inserts_lt. lia.
      * rewrite Hmul, Hc by lia. apply list_lookup_inserts_ge. 
        rewrite Hnum. pose proof (Nat.mul_le_mono_l (S i) (S i + k) (num + 1)). lia.
    + intros [|k] row' t Hk Ht.
      * simpl in Hk. injection Hk as <-. rewrite Nat.add_0_r.
        rewrite Hb by lia.
        rewrite list_lookup_inserts by (rewrite ?Hnum; lia).
        destruct (lookup_lt_is_Some_2 nrows ((num + 1) * i + t - (1 + (num + 1) * i)))
          as [nrow Hnrow]; [lia|].
        exists nrow. split; [done|].
        rewrite Forall_lookup in Hall. by eapply Hall.
      * simpl in Hk. rewrite Hmul. by apply Hd.
Qed.

(** [add_negative_sampling(container, num)] with [num > 0], when it returns:
    every row is followed by [num] negatives of it. *)
Lemma add_negative_sampling_rows fuel container num d idr tape d' tape' :
  0 < num → idrange d = Some idr → (0 < length idr)%nat →
  add_negative_sampling fuel container num d tape = Some (d', tape') →
  shape1 d' = shape1 d ∧ idrange d' = idrange d ∧
  length (interactions d') = ((Z.to_nat num + 1) * length (interactions d))%nat ∧
  ∀ i row, interactions d !! i = Some row →
    interactions d' !! ((Z.to_nat num + 1) * i)%nat = Some row ∧
    ∀ t, (1 ≤ t ≤ Z.to_nat num)%nat →
      ∃ nrow, interactions d' !! ((Z.to_nat num + 1) * i + t)%nat = Some nrow ∧
              negative_of container idr row nrow.
Proof.
  intros Hnum Hidr Hlen. unfold add_negative_sampling.
  rewrite decide_False by lia. rewrite Hidr. cbn [mbind option_bind].
  destruct (fill_negatives _ _ _ _ _ _ _ _ _) as [[data' tape1]|] eqn:E;
    cbn [mbind option_bind]; [|done].
  intros [= <- <-]. simpl.
  apply fill_negatives_spec in E as (Hl & _ & Hc & Hd);
    [|done|rewrite length_np_repeat; simpl; lia].
  rewrite length_np_repeat in Hl.
  split; [done|]. split; [done|]. split; [done|].
  intros i row Hrow. split.
  - specialize (Hc i (lookup_lt_Some _ _ _ Hrow)). simpl in Hc. rewrite Hc.
    pose proof (lookup_np_repeat (Z.to_nat num + 1) (interactions d) i 0) as Hr.
    rewrite Nat.add_0_r in Hr. rewrite Hr by lia. done.
  - intros t Ht. apply (Hd i row t Hrow Ht).
Qed.

Lemma existsb_false {A} (f : A → bool) (l : list A) x :
  existsb f l = false → x ∈ l → f x = false.
Proof.
  induction l as [|y l IH]; simpl; intros Hf Hx; [by apply elem_of_nil in Hx|].
  apply orb_false_elim in Hf as [Hy Hl].
  apply elem_of_cons in Hx as [->|Hx]; [done|by apply IH].
Qed.

Lemma combinations2_lookup (l : list Z) a b x y :
  (a < b)%nat → l !! a = Some x → l !! b = Some y → (x, y) ∈ combinations2 l.
Proof.
  revert a b. induction l as [|h l IH]; intros a b Hab Ha Hb; [done|].
  destruct b as [|b]; [lia|]. simpl in Hb. simpl. apply elem_of_app.
  destruct a as [|a].
  - left. injection Ha as ->. apply (list_elem_of_fmap_2 (λ y, (x, y))).
    by eapply list_elem_of_lookup_2.
  - right. simpl in Ha. apply (IH a b); [lia|done..].
Qed.

(** No two entity cells of an accepted row are a pair of the container. *)
Lemma negative_of_pairs container idr row nrow a b :
  negative_of container idr row nrow →
  (a < b < length idr)%nat →
  container (nrow !!! a, nrow !!! b) = false.
Proof.
  intros [(Hlen & _) Hcomb] Hab. unfold row_comb_in_container in Hcomb.
  eapply existsb_false; [exact Hcomb|].
  apply (combinations2_lookup _ a b); [lia|..];
    (rewrite lookup_take_lt by lia; apply list_lookup_lookup_total_lt; lia).
Qed.

(** C1: when [add_negative_sampling(container, num=2)] returns on a
    normalised table of N rows, the table has 3N rows, the original rows are
    at positions 0, 3, 6, ..., and the two rows after each of them have
    label 0, an item other than the item of that row, and no pair of their
    entity cells in [container], their user/item pair in particular. *)
Theorem add_negative_sampling_spec (fuel : nat) (container : Z * Z → bool)
    (d : Dataset) (idr tape : list Z) (d' : Dataset) (tape' : list Z) :
  well_formed d → normalized d idr →
  add_negative_sampling fuel container 2 d tape = Some (d', tape') →
  length (interactions d') = (3 * length (interactions d))%nat ∧
  ∀ i row, interactions d !! i = Some row →
    interactions d' !! (3 * i)%nat = Some row ∧
    ∀ t, t = 1%nat ∨ t = 2%nat →
      ∃ nrow, interactions d' !! (3 * i + t)%nat = Some nrow ∧
        label nrow = 0 ∧ nrow !!! 1%nat ≠ row !!! 1%nat ∧
        (∀ a b, (a < b < shape1 d - 1)%nat →
                container (nrow !!! a, nrow !!! b) = false) ∧
        container (nrow !!! 0%nat, nrow !!! 1%nat) = false.
Proof.
  intros [Hw _] (Hidr & Hlen & _) Hrun.
  apply (add_negative_sampling_rows _ _ _ _ idr) in Hrun
    as (_ & _ & Hrows & Hblocks); [|lia|done|lia].
  change (Z.to_nat 2 + 1)%nat with 3%nat in *. split; [done|].
  intros i row Hrow. destruct (Hblocks i row Hrow) as [Horig Hneg].
  split; [done|]. intros t Ht.
  destruct (Hneg t) as (nrow & Hnrow & Hof); [change (Z.to_nat 2) with 2%nat; lia|].
  exists nrow. split; [done|].
  pose proof Hof as [(Hl & _ & Hlab & Hcols) _].
  split; [|split; [|split]].
  - unfold label. rewrite Hl. by replace (length idr + 1 - 1)%nat with (length idr) by lia.
  - apply (Hcols 1%nat). lia.
  - intros a b Hab. apply (negative_of_pairs _ idr row); [done|lia].
  - apply (negative_of_pairs _ idr row); [done|lia].
Qed.

Lemma add_negative_sampling_spec_witness :
  ∃ d' tape',
    add_negative_sampling 1 context_links 2 context_table context_tape
      = Some (d', tape') ∧
    length (interactions d') = (3 * length (interactions context_table))%nat ∧
    ∀ i row, interactions context_table !! i = Some row →
      interactions d' !! (3 * i)%nat = Some row ∧
      ∀ t, t = 1%nat ∨ t = 2%nat →
        ∃ nrow, interactions d' !! (3 * i + t)%nat = Some nrow ∧
          label nrow = 0 ∧ nrow !!! 1%nat ≠ row !!! 1%nat ∧
          (∀ a b, (a < b < shape1 context_table - 1)%nat →
                  context_links (nrow !!! a, nrow !!! b) = false) ∧
          context_links (nrow !!! 0%nat, nrow !!! 1%nat) = false.
Proof.
  eexists _, _. split; [vm_compute; reflexivity|].
  eapply (add_negative_sampling_spec 1 context_links context_table [2; 4; 6]
            context_tape).
  - split; [simpl; lia|repeat constructor].
  - apply normalized_intro; [reflexivity..|].
    repeat constructor; unfold in_subrange; simpl; lia.
  - vm_compute. reflexivity.
Defined.

(** C7, as the code has it: a negative row keeps the user of its source row;
    every other entity column, the item and the context columns alike, is
    redrawn to an id of that column's range other than the one of the source
    row. *)
Theorem negative_rows_frame (fuel : nat) (container : Z * Z → bool) (num : Z)
    (d : Dataset) (idr tape : list Z) (d' : Dataset) (tape' : list Z) :
  well_formed d → normalized d idr → 0 < num →
  add_negative_sampling fuel container num d tape = Some (d', tape') →
  ∀ i row t, interactions d !! i = Some row → (1 ≤ t ≤ Z.to_nat num)%nat →
    ∃ nrow, interactions d' !! ((Z.to_nat num + 1) * i + t)%nat = Some nrow ∧
      nrow !!! 0%nat = row !!! 0%nat ∧
      ∀ j, (1 ≤ j < shape1 d - 1)%nat →
           nrow !!! j ≠ row !!! j ∧ in_subrange idr j (nrow !!! j).
Proof.
  intros [Hw _] (Hidr & Hlen & _) Hnum Hrun i row t Hrow Ht.
  apply (add_negative_sampling_rows _ _ _ _ idr) in Hrun
    as (_ & _ & _ & Hblocks); [|done..|lia].
  destruct (Hblocks i row Hrow) as [_ Hneg].
  destruct (Hneg t Ht) as (nrow & Hnrow & (_ & Huser & _ & Hcols) & _).
  exists nrow. split; [done|]. split; [done|].
  intros j Hj. destruct (Hcols j ltac:(lia)) as [Hne Hrange].
  split; [done|]. unfold in_subrange. destruct j as [|j]; [lia|].
  simpl in *. by rewrite Nat.sub_0_r in Hrange.
Qed.

Lemma negative_rows_frame_witness :
  ∃ d' tape',
    add_negative_sampling 1 context_links 2 context_table context_tape
      = Some (d', tape') ∧
    ∀ i row t, interactions context_table !! i = Some row →
      (1 ≤ t ≤ Z.to_nat 2)%nat →
      ∃ nrow, interactions d' !! ((Z.to_nat 2 + 1) * i + t)%nat = Some nrow ∧
        nrow !!! 0%nat = row !!! 0%nat ∧
        ∀ j, (1 ≤ j < shape1 context_table - 1)%nat →
             nrow !!! j ≠ row !!! j ∧ in_subrange [2; 4; 6] j (nrow !!! j).
Proof.
  eexists _, _. split; [vm_compute; reflexivity|].
  eapply (negative_rows_frame 1 context_links 2 context_table [2; 4; 6]
            context_tape).
  - split; [simpl; lia|repeat constructor].
  - apply normalized_intro; [reflexivity..|].
    repeat constructor; unfold in_subrange; simpl; lia.
  - lia.
  - vm_compute. reflexivity.
Defined.

(** C7 as stated keeps the context columns: here the first negative of the
    row (0, 2, 4, 1) has context 5. *)
Lemma negative_rows_context_counterexample :
  normalized context_table [2; 4; 6] ∧
  ∃ d' tape' row nrow,
    add_negative_sampling 1 context_links 2 context_table context_tape
      = Some (d', tape') ∧
    interactions context_table !! 0%nat = Some row ∧
    interactions d' !! 1%nat = Some nrow ∧
    nrow !!! 2%nat ≠ row !!! 2%nat.
Proof.
  split; [apply context_table_normalized|].
  eexists _, _, _, _. split; [vm_compute; reflexivity|].
  split; [reflexivity|]. split; [reflexivity|]. by vm_compute.
Qed.

(** The run behind the examples of C1 and C7. *)
Example add_negative_sampling_context_table :
  (interactions ∘ fst)
    <$> add_negative_sampling 1 context_links 2 context_table context_tape
  = Some [[0; 2; 4; 1]; [0; 3; 5; 0]; [0; 3; 5; 0];
          [1; 3; 5; 1]; [1; 2; 4; 0]; [1; 2; 4; 0]].
Proof. by vm_compute. Qed.

(** * Further properties *)

(** ** Normalisation: order, density, idempotence *)

Lemma sorted_lt_NoDup (l : list Z) : StronglySorted Z.lt l → NoDup l.
Proof.
  induction 1 as [|x l Hs IH Hx]; [apply NoDup_nil_2|].
  apply NoDup_cons. split; [|done].
  intros Hin. rewrite Forall_forall in Hx. specialize (Hx x Hin). lia.
Qed.

Lemma sorted_lt_ext (l k : list Z) :
  StronglySorted Z.lt l → StronglySorted Z.lt k → (∀ x, x ∈ l ↔ x ∈ k) → l = k.
Proof.
  intros Hl Hk Hext. apply (StronglySorted_unique_strong Z.lt); [|done..|].
  - intros x1 x2 _ _ H1 H2. lia.
  - apply NoDup_Permutation; [by apply sorted_lt_NoDup..|done].
Qed.

Lemma sorted_lt_of_lookup (l : list Z) :
  (∀ i j x y, (i < j)%nat → l !! i = Some x → l !! j = Some y → x < y) →
  StronglySorted Z.lt l.
Proof.
  induction l as [|h l IH]; intros Hl; [constructor|].
  constructor.
  - apply IH. intros i j x y Hij Hi Hj. apply (Hl (S i) (S j)); [lia|done..].
  - apply Forall_lookup. intros j y Hj. apply (Hl 0%nat (S j)); [lia|done..].
Qed.

Lemma seqZ_sorted m n : StronglySorted Z.lt (seqZ m n).
Proof.
  apply sorted_lt_of_lookup. intros i j x y Hij Hi Hj.
  apply lookup_seqZ in Hi as [-> _]. apply lookup_seqZ in Hj as [-> _]. lia.
Qed.

Lemma sorted_lookup_inj (a : list Z) i j x :
  StronglySorted Z.lt a → a !! i = Some x → a !! j = Some x → i = j.
Proof.
  intros Hs Hi Hj. destruct (Nat.lt_trichotomy i j) as [H|[H|H]]; [|done|].
  - pose proof (sorted_lookup_lt a i j x x Hs Hi Hj H). lia.
  - pose proof (sorted_lookup_lt a j i x x Hs Hj Hi H). lia.
Qed.

(** The rank [find] answers is the position of the value. *)
Lemma normalize_find_lookup (a : list Z) k x :
  StronglySorted Z.lt a → a !! k = Some x → normalize_find a x = Z.of_nat k.
Proof.
  intros Hs Hk.
  destruct (normalize_find_found a x Hs) as [Hr Hl];
    [by eapply list_elem_of_lookup_2|].
  rewrite <- (sorted_lookup_inj a _ _ x Hs Hl Hk). lia.
Qed.

(** Ranks follow the order of the raw values. *)
Lemma normalize_find_mono (a : list Z) x y :
  StronglySorted Z.lt a → x ∈ a → y ∈ a →
  (x < y ↔ normalize_find a x < normalize_find a y).
Proof.
  intros Hs Hx Hy.
  apply list_elem_of_lookup in Hx as [i Hi]. apply list_elem_of_lookup in Hy as [j Hj].
  rewrite (normalize_find_lookup a i x Hs Hi), (normalize_find_lookup a j y Hs Hj).
  split.
  - intros Hxy. destruct (Nat.lt_trichotomy i j) as [H|[H|H]]; [lia|subst|].
    + assert (x = y) by congruence. lia.
    + pose proof (sorted_lookup_lt a j i y x Hs Hj Hi H). lia.
  - intros Hij. apply (sorted_lookup_lt a i j); [done..|lia].
Qed.

(** X1: [normalize_ids()] keeps the order of the ids of a column: of two rows,
    one has the smaller raw id in an entity column exactly when it has the
    smaller normalised id there; equal raw ids stay equal and distinct ones
    stay distinct. *)
Theorem normalize_ids_order_preserving (rm : bool) (d : Dataset) :
  well_formed d →
  ∃ d' m,
    normalize_ids None rm d = Some (d', m) ∧
    ∀ a b ra rb ra' rb' i,
      interactions d !! a = Some ra → interactions d !! b = Some rb →
      interactions d' !! a = Some ra' → interactions d' !! b = Some rb' →
      (i < shape1 d - 1)%nat →
      (ra !!! i < rb !!! i ↔ ra' !!! i < rb' !!! i) ∧
      (ra !!! i = rb !!! i ↔ ra' !!! i = rb' !!! i).
Proof.
  intros Hwf.
  destruct (normalize_ids_normalized rm d Hwf) as (d' & idr & Hn & Hw & Hrows & _).
  exists d', (derive_mapping d). split; [done|].
  intros a b ra rb ra' rb' i Ha Hb Ha' Hb' Hi.
  rewrite Hrows, list_lookup_fmap in Ha', Hb'. rewrite Ha in Ha'. rewrite Hb in Hb'.
  simpl in Ha', Hb'. injection Ha' as <-. injection Hb' as <-.
  assert (Hra : ra ∈ interactions d) by (by eapply list_elem_of_lookup_2).
  assert (Hrb : rb ∈ interactions d) by (by eapply list_elem_of_lookup_2).
  destruct (derive_mapping_cell d ra i Hra Hi) as (c & Hc & Hs & Hxa & _ & Hbacka).
  destruct (derive_mapping_cell d rb i Hrb Hi) as (c2 & Hc2 & _ & Hxb & _ & Hbackb).
  assert (c2 = c) as -> by congruence.
  destruct (normalize_derived_lookup d ra i Hwf Hra Hi) as (c3 & Hc3 & _ & ->).
  destruct (normalize_derived_lookup d rb i Hwf Hrb Hi) as (c4 & Hc4 & _ & ->).
  assert (c3 = c) as -> by congruence. assert (c4 = c) as -> by congruence.
  pose proof (normalize_find_mono c _ _ Hs Hxa Hxb) as Hmono.
  split; [rewrite Hmono; lia|].
  split; [by intros ->|]. intros Heq.
  assert (normalize_find c (ra !!! i) = normalize_find c (rb !!! i)) as Hf by lia.
  by rewrite <- Hbacka, <- Hbackb, Hf.
Qed.

Lemma normalize_ids_order_preserving_witness :
  ∃ d' m,
    normalize_ids None true raw_table = Some (d', m) ∧
    ∀ a b ra rb ra' rb' i,
      interactions raw_table !! a = Some ra →
      interactions raw_table !! b = Some rb →
      interactions d' !! a = Some ra' → interactions d' !! b = Some rb' →
      (i < shape1 raw_table - 1)%nat →
      (ra !!! i < rb !!! i ↔ ra' !!! i < rb' !!! i) ∧
      (ra !!! i = rb !!! i ↔ ra' !!! i = rb' !!! i).
Proof.
  apply (normalize_ids_order_preserving true raw_table).
  split; [simpl; lia|repeat constructor].
Defined.

(** X2: the ids [normalize_ids()] hands out are consecutive: every id of the
    sub-range of a column is the id of some row in that column. *)
Theorem normalize_ids_dense (rm : bool) (d : Dataset) :
  well_formed d →
  ∃ d' m idr,
    normalize_ids None rm d = Some (d', m) ∧ idrange d' = Some idr ∧
    ∀ i z, (i < length idr)%nat → in_subrange idr i z →
           ∃ r', r' ∈ interactions d' ∧ r' !!! i = z.
Proof.
  intros Hwf.
  destruct (normalize_ids_derived rm d Hwf) as (idr & Hn & Hlen & Hidr).
  eexists _, _, idr. split; [exact Hn|]. split; [done|]. simpl.
  intros i z Hi [Hlo Hhi]. rewrite Hlen in Hi.
  rewrite (column_lo_derived d idr i Hidr) in Hlo by lia.
  rewrite (list_lookup_total_correct _ _ _ (Hidr i Hi)) in Hhi.
  pose proof (derive_mapping_lookup d i Hi) as Hc.
  set (c := np_sort (np_unique (column i (interactions d)))) in *.
  rewrite (cumwidth_S _ _ _ Hc) in Hhi.
  destruct (lookup_lt_is_Some_2 c (Z.to_nat (z - cumwidth (derive_mapping d) i)))
    as [x Hx]; [lia|].
  assert (Hxc : x ∈ column i (interactions d)).
  { apply sort_unique_elem. by eapply list_elem_of_lookup_2. }
  apply list_elem_of_fmap in Hxc as (r & -> & Hr).
  exists (normalize_row (derive_mapping d) 0 0 r). split.
  - by apply (list_elem_of_fmap_2 (normalize_row (derive_mapping d) 0 0)).
  - destruct (normalize_derived_lookup d r i Hwf Hr Hi) as (c' & Hc' & _ & ->).
    assert (c' = c) as -> by congruence.
    rewrite (normalize_find_lookup c _ _ (sort_unique_sorted _) Hx). lia.
Qed.

Lemma normalize_ids_dense_witness :
  ∃ d' m idr,
    normalize_ids None true raw_table = Some (d', m) ∧ idrange d' = Some idr ∧
    ∀ i z, (i < length idr)%nat → in_subrange idr i z →
           ∃ r', r' ∈ interactions d' ∧ r' !!! i = z.
Proof.
  apply (normalize_ids_dense true raw_table).
  split; [simpl; lia|repeat constructor].
Defined.

Lemma cumwidth_ext m m' k :
  (∀ j, (j < k)%nat →
        ∃ c c', m !! j = Some c ∧ m' !! j = Some c' ∧ length c = length c') →
  cumwidth m k = cumwidth m' k.
Proof.
  induction k as [|k IH]; intros Hj; [done|].
  destruct (Hj k ltac:(lia)) as (c & c' & Hc & Hc' & Hlen).
  rewrite (cumwidth_S _ _ _ Hc), (cumwidth_S _ _ _ Hc'), Hlen, IH; [done|].
  intros j Hjk. apply Hj. lia.
Qed.

(** The values column [k] takes after normalisation are exactly the ids of its
    sub-range. *)
Lemma normalized_column_values d k c z :
  well_formed d → derive_mapping d !! k = Some c →
  (∃ r, r ∈ interactions d ∧ normalize_row (derive_mapping d) 0 0 r !!! k = z) ↔
  cumwidth (derive_mapping d) k ≤ z < cumwidth (derive_mapping d) k + Z.of_nat (length c).
Proof.
  intros Hwf Hc.
  assert (Hk : (k < shape1 d - 1)%nat).
  { rewrite <- derive_mapping_length. by eapply lookup_lt_Some. }
  rewrite (derive_mapping_lookup d k Hk) in Hc. injection Hc as <-.
  split.
  - intros (r & Hr & <-).
    destruct (normalize_derived_lookup d r k Hwf Hr Hk) as (c' & Hc' & Hb & ->).
    rewrite (derive_mapping_lookup d k Hk) in Hc'. injection Hc' as <-. lia.
  - intros Hz.
    set (c := np_sort (np_unique (column k (interactions d)))) in *.
    destruct (lookup_lt_is_Some_2 c (Z.to_nat (z - cumwidth (derive_mapping d) k)))
      as [x Hx]; [lia|].
    assert (Hxc : x ∈ column k (interactions d)).
    { apply sort_unique_elem. by eapply list_elem_of_lookup_2. }
    apply list_elem_of_fmap in Hxc as (r & -> & Hr).
    exists r. split; [done|].
    destruct (normalize_derived_lookup d r k Hwf Hr Hk) as (c' & Hc' & _ & ->).
    rewrite (derive_mapping_lookup d k Hk) in Hc'.
    assert (c' = c) as -> by (unfold c; congruence).
    rewrite (normalize_find_lookup c _ _ (sort_unique_sorted _) Hx). lia.
Qed.

Lemma normalize_ids_well_formed rm d d' m :
  well_formed d → normalize_ids None rm d = Some (d', m) →
  well_formed d' ∧ shape1 d' = shape1 d.
Proof.
  intros Hwf Hn.
  destruct (normalize_ids_normalized rm d Hwf) as (d2 & idr & Hn2 & Hw & Hrows & _).
  rewrite Hn in Hn2. injection Hn2 as <- _.
  split; [|done]. destruct Hwf as [H2 Hrect]. split; [lia|].
  unfold rectangular. rewrite Hrows, Hw. apply Forall_fmap, Forall_forall.
  intros r Hr. simpl. rewrite normalize_row_length. by apply (rectangular_row d).
Qed.

(** The mapping derived from a normalised table lists, for every column, the
    ids of its sub-range. *)
Lemma derive_mapping_normalized rm d d' m k c :
  well_formed d → normalize_ids None rm d = Some (d', m) →
  derive_mapping d !! k = Some c →
  derive_mapping d' !! k =
    Some (seqZ (cumwidth (derive_mapping d) k) (Z.of_nat (length c))).
Proof.
  intros Hwf Hn Hc.
  destruct (normalize_ids_normalized rm d Hwf) as (d2 & idr & Hn2 & Hw & Hrows & _).
  rewrite Hn in Hn2. injection Hn2 as <- _.
  assert (Hk : (k < shape1 d - 1)%nat).
  { rewrite <- derive_mapping_length. by eapply lookup_lt_Some. }
  rewrite derive_mapping_lookup by lia. f_equal.
  apply sorted_lt_ext; [apply sort_unique_sorted|apply seqZ_sorted|].
  intros z. rewrite sort_unique_elem, elem_of_seqZ.
  rewrite <- (normalized_column_values d k c z Hwf Hc).
  unfold column. rewrite Hrows, list_elem_of_fmap. split.
  - intros (r' & -> & Hr'). apply list_elem_of_fmap in Hr' as (r & -> & Hr).
    by exists r.
  - intros (r & Hr & <-). eexists. split; [done|].
    by apply (list_elem_of_fmap_2 (normalize_row (derive_mapping d) 0 0)).
Qed.

(** X3: normalising a table that [normalize_ids()] has normalised changes
    nothing: the rows and [idrange] stay as they are. *)
Theorem normalize_ids_idempotent (rm rm' : bool) (d : Dataset) :
  well_formed d →
  ∃ d' m m',
    normalize_ids None rm d = Some (d', m) ∧
    normalize_ids None rm' d' = Some (d', m').
Proof.
  intros Hwf.
  destruct (normalize_ids_derived rm d Hwf) as (idr & Hn & Hlen & Hidr).
  set (m := derive_mapping d) in *.
  set (d' := mkDataset (shape1 d) (normalize_row m 0 0 <$> interactions d) (Some idr)) in *.
  destruct (normalize_ids_well_formed rm d d' m Hwf Hn) as [Hwf' Hw'].
  destruct (normalize_ids_derived rm' d' Hwf') as (idr' & Hn' & Hlen' & Hidr').
  set (m' := derive_mapping d') in *.
  exists d', m, m'. split; [done|]. rewrite Hn'. do 2 f_equal.
  assert (Hcols : ∀ k, (k < shape1 d - 1)%nat →
            ∃ c, m !! k = Some c ∧
                 m' !! k = Some (seqZ (cumwidth m k) (Z.of_nat (length c)))).
  { intros k Hk. destruct (lookup_lt_is_Some_2 m k) as [c Hc].
    { unfold m. rewrite derive_mapping_length. lia. }
    exists c. split; [done|]. by apply (derive_mapping_normalized rm d d' m). }
  assert (Hcum : ∀ k, (k ≤ shape1 d - 1)%nat → cumwidth m' k = cumwidth m k).
  { intros k Hk. apply cumwidth_ext. intros j Hj.
    destruct (Hcols j ltac:(lia)) as (c & Hc & Hc').
    eexists _, c. split; [exact Hc'|]. split; [done|].
    rewrite length_seqZ. lia. }
  unfold d' at 3. f_equal.
  - simpl. etrans; [|apply list_fmap_id].
    apply Forall_fmap_ext_1, Forall_forall. intros r' Hr'. simpl.
    pose proof Hr' as Hr2. apply list_elem_of_fmap in Hr2 as (r & Hr2 & Hr).
    assert (Hrl : length r' = shape1 d).
    { rewrite Hr2, normalize_row_length. apply (rectangular_row d); [apply Hwf|done]. }
    apply list_eq. intros k.
    destruct (decide (k < shape1 d - 1)%nat) as [Hk|Hk].
    + destruct (Hcols k Hk) as (c & Hc & Hc').
      pose proof (normalize_row_lookup m' 0 0 r' k _ Hc') as Hl. simpl in Hl.
      rewrite Hl by lia. rewrite (Hcum k) by lia.
      assert (Hv : cumwidth m k ≤ r' !!! k < cumwidth m k + Z.of_nat (length c)).
      { apply (normalized_column_values d k c); [done..|]. exists r. by rewrite Hr2. }
      rewrite (normalize_find_lookup _ (Z.to_nat (r' !!! k - cumwidth m k)) (r' !!! k)
                 (seqZ_sorted _ _)).
      * rewrite list_lookup_lookup_total_lt by lia. f_equal. lia.
      * apply lookup_seqZ. lia.
    + apply normalize_row_lookup_other. right. unfold m'.
      rewrite derive_mapping_length. simpl. lia.
  - f_equal. apply list_eq. intros k.
    destruct (decide (k < shape1 d - 1)%nat) as [Hk|Hk].
    + rewrite (Hidr' k) by (simpl; lia). rewrite (Hidr k Hk).
      by rewrite (Hcum (S k)) by lia.
    + rewrite !lookup_ge_None_2; [done|lia|simpl in Hlen'; lia].
Qed.

Lemma normalize_ids_idempotent_witness :
  ∃ d' m m',
    normalize_ids None true raw_table = Some (d', m) ∧
    normalize_ids None true d' = Some (d', m').
Proof.
  apply (normalize_ids_idempotent true true raw_table).
  split; [simpl; lia|repeat constructor].
Defined.

(** ** Normalisation with a given mapping, and denormalisation *)

Lemma normalize_find_ge (c : list Z) x : -1 ≤ normalize_find c x.
Proof. unfold normalize_find. case_decide; lia. Qed.

Lemma keeps_row_iff (r : list Z) :
  (2 ≤ length r)%nat → keeps_row r ↔ 0 ≤ r !!! 0%nat ∧ 0 ≤ r !!! 1%nat.
Proof.
  destruct r as [|a [|b t]]; simpl; [lia..|]. intros _. unfold keeps_row. simpl.
  rewrite !Forall_cons, Forall_nil. change ((a :: b :: t) !!! 0%nat) with a.
  change ((a :: b :: t) !!! 1%nat) with b. tauto.
Qed.

Lemma filter_fmap_comm {A B} (f : A → B) (P : B → Prop)
    `{!∀ y, Decision (P y)} (l : list A) :
  filter P (f <$> l) = f <$> filter (λ x, P (f x)) l.
Proof.
  induction l as [|x l IH]; [done|].
  rewrite fmap_cons, !filter_cons, IH. by case_decide.
Qed.

Lemma filter_ext_in {A} (P Q : A → Prop) `{!∀ x, Decision (P x)}
    `{!∀ x, Decision (Q x)} (l : list A) :
  (∀ x, x ∈ l → P x ↔ Q x) → filter P l = filter Q l.
Proof.
  induction l as [|x l IH]; intros Hext; [done|].
  rewrite !filter_cons, IH by (intros y Hy; apply Hext; by right).
  pose proof (Hext x ltac:(by left)). repeat case_decide; (done || tauto).
Qed.

(** X4: with a given mapping whose user array is sorted, [normalize_ids]
    with [remove_missing=True] drops exactly the rows whose user the mapping
    does not hold; the item and the context columns never make a row go. *)
Theorem normalize_ids_drops_unknown_users (m : list (list Z)) (c0 : list Z)
    (d : Dataset) :
  well_formed d → (length m + 1)%nat = shape1 d →
  m !! 0%nat = Some c0 → StronglySorted Z.lt c0 →
  ∃ d', normalize_ids (Some m) true d = Some (d', m) ∧
        interactions d' =
          normalize_row m 0 0 <$> filter (λ r, r !!! 0%nat ∈ c0) (interactions d).
Proof.
  intros [Hw Hrect] Hlen Hc0 Hs. unfold normalize_ids.
  rewrite decide_True by done. cbn [mbind option_bind].
  destruct (normalize_columns _ _ _ _ _) as [rows idr] eqn:E.
  assert (Hrows : rows = normalize_row m 0 0 <$> interactions d).
  { rewrite <- normalize_columns_rows with (idr := replicate (length m) 0).
    by rewrite E. }
  eexists. split; [done|]. simpl. unfold remove_negative_ids.
  rewrite Hrows, filter_fmap_comm. f_equal.
  apply filter_ext_in. intros r Hr.
  pose proof (rectangular_row d r Hrect Hr) as Hrl.
  rewrite keeps_row_iff by (rewrite normalize_row_length; lia).
  destruct (lookup_lt_is_Some_2 m 1) as [c1 Hc1]; [lia|].
  pose proof (normalize_row_lookup m 0 0 r 0 c0 Hc0 ltac:(lia)) as H0.
  pose proof (normalize_row_lookup m 0 0 r 1 c1 Hc1 ltac:(lia)) as H1.
  simpl in H0, H1.
  rewrite (list_lookup_total_correct _ _ _ H0), (list_lookup_total_correct _ _ _ H1).
  rewrite cumwidth_0, (cumwidth_S m 0 c0 Hc0), cumwidth_0.
  pose proof (normalize_find_ge c1 (r !!! 1%nat)).
  split.
  - intros [Hu _]. destruct (decide (r !!! 0%nat ∈ c0)) as [|Hnot]; [done|].
    rewrite (normalize_find_missing c0 _ Hnot) in Hu. lia.
  - intros Hin. destruct (normalize_find_found c0 _ Hs Hin) as [Hb _].
    assert (0 < Z.of_nat (length c0)) by lia. lia.
Qed.

Lemma normalize_ids_drops_unknown_users_witness :
  ∃ d', normalize_ids (Some stray_mapping) true guest_table
          = Some (d', stray_mapping) ∧
        interactions d' =
          normalize_row stray_mapping 0 0
            <$> filter (λ r, r !!! 0%nat ∈ [0]) (interactions guest_table).
Proof.
  apply (normalize_ids_drops_unknown_users stray_mapping [0] guest_table).
  - split; [simpl; lia|repeat constructor].
  - reflexivity.
  - reflexivity.
  - repeat constructor.
Defined.

(** X5: whichever rows of a table normalised by [normalize_ids()] are kept,
    in whatever order, [denormalize_ids] with the mapping of that call gives
    their raw rows back; with [remove_missing=True] the rows whose raw user
    or item id is negative are dropped on the way. *)
Theorem denormalize_ids_selection (rm rm2 : bool) (d : Dataset) (idxs : list nat) :
  well_formed d →
  Forall (λ i, (i < length (interactions d))%nat) idxs →
  ∃ d' m,
    normalize_ids None rm d = Some (d', m) ∧
    denormalize_ids m rm2
      (mkDataset (shape1 d') (np_index idxs (interactions d')) (idrange d')) =
    Some (mkDataset (shape1 d)
            (if rm2 then remove_negative_ids (np_index idxs (interactions d))
             else np_index idxs (interactions d)) None).
Proof.
  intros Hwf Hidxs.
  destruct (normalize_ids_normalized rm d Hwf) as (d' & idr & Hn & Hw & Hrows & _).
  exists d', (derive_mapping d). split; [done|]. unfold denormalize_ids. simpl.
  rewrite decide_True by (rewrite derive_mapping_length; lia).
  rewrite Hw. do 2 f_equal.
  assert (Hback : denormalize_columns (derive_mapping d) 0 0
                    (np_index idxs (interactions d')) =
                  np_index idxs (interactions d)).
  { rewrite denormalize_columns_rows. unfold np_index.
    rewrite <- list_fmap_compose.
    apply Forall_fmap_ext_1. eapply Forall_impl; [exact Hidxs|].
    intros i Hi. simpl. rewrite Hrows.
    rewrite (list_lookup_total_fmap (normalize_row (derive_mapping d) 0 0)
               (interactions d) i Hi).
    apply denormalize_normalize_row; [done|].
    apply list_elem_of_lookup_total_2. done. }
  by rewrite Hback.
Qed.

Lemma denormalize_ids_selection_witness :
  ∃ d' m,
    normalize_ids None true signed_table = Some (d', m) ∧
    denormalize_ids m true
      (mkDataset (shape1 d') (np_index [3; 2; 0]%nat (interactions d'))
         (idrange d')) =
    Some (mkDataset (shape1 signed_table)
            (if true
             then remove_negative_ids
                    (np_index [3; 2; 0]%nat (interactions signed_table))
             else np_index [3; 2; 0]%nat (interactions signed_table)) None).
Proof.
  apply (denormalize_ids_selection true true signed_table [3; 2; 0]%nat).
  - split; [simpl; lia|repeat constructor].
  - repeat constructor; simpl; lia.
Defined.

(** ** Construction *)

(** X6: [Dataset.__init__] refuses an array of fewer than two columns; an
    array of two columns gets a label column of ones, a wider one is taken as
    it is; what it builds is rectangular, at least three columns wide, and
    not yet normalised. *)
Theorem Dataset_init_spec (w : nat) (rows : list (list Z)) :
  Forall (λ r, length r = w) rows →
  ((w < 2)%nat → Dataset_init w rows = None) ∧
  ((2 ≤ w)%nat →
     ∃ d, Dataset_init w rows = Some d ∧ well_formed d ∧ idrange d = None ∧
          shape1 d = (if decide (w = 2%nat) then 3%nat else w) ∧
          interactions d =
            (λ r, if decide (w = 2%nat) then r ++ [1] else r) <$> rows).
Proof.
  intros Hrect. unfold Dataset_init. split.
  - intros Hw. rewrite (decide_False (P := w = 2%nat)) by lia.
    by rewrite decide_False by lia.
  - intros Hw. destruct (decide (w = 2%nat)) as [->|Hne].
    + rewrite decide_True by lia. eexists. split; [done|].
      split; [|done]. split; [simpl; lia|].
      unfold rectangular. simpl. apply Forall_fmap.
      eapply Forall_impl; [exact Hrect|]. intros r Hr. simpl.
      rewrite length_app, Hr. done.
    + rewrite decide_True by lia. eexists. split; [done|].
      split; [|split; [done|split; [done|]]].
      * split; [simpl; lia|done].
      * simpl. by rewrite list_fmap_id.
Qed.

Lemma Dataset_init_spec_witness :
  ((2 < 2)%nat → Dataset_init 2 [[4; 9]; [5; 9]] = None) ∧
  ((2 ≤ 2)%nat →
     ∃ d, Dataset_init 2 [[4; 9]; [5; 9]] = Some d ∧ well_formed d ∧
          idrange d = None ∧
          shape1 d = (if decide (2%nat = 2%nat) then 3%nat else 2%nat) ∧
          interactions d =
            (λ r, if decide (2%nat = 2%nat) then r ++ [1] else r)
              <$> [[4; 9]; [5; 9]]).
Proof.
  apply (Dataset_init_spec 2 [[4; 9]; [5; 9]]). repeat constructor.
Defined.

(** ** Negative sampling: what it keeps and when it cannot end *)

(** Every row of the table after [add_negative_sampling] is a row of the
    table before, or a negative of one. *)
Lemma add_negative_sampling_elem fuel container num d idr tape d' tape' r' :
  0 < num → idrange d = Some idr → (0 < length idr)%nat →
  add_negative_sampling fuel container num d tape = Some (d', tape') →
  r' ∈ interactions d' →
  r' ∈ interactions d ∨
  ∃ row, row ∈ interactions d ∧ negative_of container idr row r'.
Proof.
  intros Hnum Hidr Hlen Hrun Hr'.
  apply (add_negative_sampling_rows _ _ _ _ idr) in Hrun
    as (_ & _ & Hrows & Hblocks); [|done..].
  set (n := (Z.to_nat num + 1)%nat) in *.
  apply list_elem_of_lookup in Hr' as [p Hp].
  pose proof (lookup_lt_Some _ _ _ Hp) as Hplt. rewrite Hrows in Hplt.
  pose proof (Nat.div_mod_eq p n) as Hdm.
  assert (Hmod : (p `mod` n < n)%nat) by (apply Nat.mod_upper_bound; lia).
  assert (Hdiv : (p `div` n < length (interactions d))%nat)
    by (apply Nat.Div0.div_lt_upper_bound; lia).
  destruct (lookup_lt_is_Some_2 _ _ Hdiv) as [row Hrow].
  destruct (Hblocks _ row Hrow) as [Horig Hneg].
  assert (Hrowin : row ∈ interactions d) by (by eapply list_elem_of_lookup_2).
  destruct (decide (p `mod` n = 0)%nat) as [H0|H0].
  - left. rewrite Hdm, H0, Nat.add_0_r, Horig in Hp. by injection Hp as <-.
  - right. destruct (Hneg (p `mod` n)%nat) as (nrow & Hnrow & Hof); [lia|].
    rewrite <- Hdm, Hp in Hnrow. injection Hnrow as <-. by exists row.
Qed.

(** X7: [add_negative_sampling] keeps a normalised table normalised: the
    table it leaves is rectangular with the same columns and [idrange], and
    every entity cell, of the negatives too, lies in the sub-range of its
    column. *)
Theorem add_negative_sampling_normalized (fuel : nat)
    (container : Z * Z → bool) (num : Z) (d : Dataset) (idr tape : list Z)
    (d' : Dataset) (tape' : list Z) :
  well_formed d → normalized d idr →
  add_negative_sampling fuel container num d tape = Some (d', tape') →
  well_formed d' ∧ normalized d' idr.
Proof.
  intros Hwf Hnorm Hrun.
  destruct (decide (num ≤ 0)) as [Hle|Hgt].
  { unfold add_negative_sampling in Hrun. rewrite decide_True in Hrun by done.
    by injection Hrun as <- _. }
  pose proof Hwf as [Hw Hrect]. pose proof Hnorm as (Hidr & Hlen & Hin).
  pose proof Hrun as Hrun2.
  apply (add_negative_sampling_rows _ _ _ _ idr) in Hrun2
    as (Hshape & Hidr' & _ & _); [|lia|done|lia].
  assert (Hall : ∀ r', r' ∈ interactions d' →
            length r' = shape1 d ∧
            ∀ i, (i < length idr)%nat → in_subrange idr i (r' !!! i)).
  { intros r' Hr'.
    assert (Hpos : 0 < num) by lia.
    assert (Hlpos : (0 < length idr)%nat) by lia.
    destruct (add_negative_sampling_elem fuel container num d idr tape d' tape'
                r' Hpos Hidr Hlpos Hrun Hr') as [Hold|(row & Hrow & Hof)].
    - split; [by apply (rectangular_row d)|]. intros i Hi. by apply Hin.
    - destruct Hof as [(Hl & Huser & _ & Hcols) _]. split; [lia|].
      intros [|i] Hi.
      + rewrite Huser. by apply Hin.
      + destruct (Hcols (S i) ltac:(lia)) as [_ Hrange].
        unfold in_subrange. simpl in *. by rewrite Nat.sub_0_r in Hrange. }
  split.
  - split; [lia|]. unfold rectangular. apply Forall_forall. intros r' Hr'.
    rewrite Hshape. by apply Hall.
  - split; [congruence|]. split; [lia|]. intros r' i Hr' Hi. by apply Hall.
Qed.

Lemma add_negative_sampling_normalized_witness :
  ∃ d' tape',
    add_negative_sampling 1 context_links 2 context_table context_tape
      = Some (d', tape') ∧
    well_formed d' ∧ normalized d' [2; 4; 6].
Proof.
  eexists _, _. split; [vm_compute; reflexivity|].
  eapply (add_negative_sampling_normalized 1 context_links 2 context_table
            [2; 4; 6] context_tape).
  - split; [simpl; lia|repeat constructor].
  - apply normalized_intro; [reflexivity..|].
    repeat constructor; unfold in_subrange; simpl; lia.
  - vm_compute. reflexivity.
Defined.

Lemma draw_other_single fuel minv tape :
  draw_other fuel minv (minv + 1) minv tape = None.
Proof.
  revert tape. induction fuel as [|fuel IH]; intros tape; simpl; [done|].
  unfold randint. destruct tape as [|r tape]; [done|].
  rewrite decide_True by lia. simpl.
  replace (minv + 1 - minv) with 1 by lia. rewrite Z.mod_1_r, Z.add_0_r.
  rewrite decide_True by done. apply IH.
Qed.

(** X8: on a normalised table with a single item, [add_negative_sampling]
    with [num > 0] never returns: whatever is drawn is the item of the row,
    and the loop of [get_random_negative_row] draws again. *)
Theorem add_negative_sampling_single_item (fuel : nat)
    (container : Z * Z → bool) (num : Z) (d : Dataset) (idr tape : list Z) :
  well_formed d → normalized d idr → interactions d ≠ [] →
  idr !!! 1%nat = idr !!! 0%nat + 1 → 0 < num →
  add_negative_sampling fuel container num d tape = None.
Proof.
  intros [Hw Hrect] (Hidr & Hlen & Hin) Hne Hone Hnum.
  unfold add_negative_sampling. rewrite decide_False by lia.
  rewrite Hidr. cbn [mbind option_bind].
  destruct (interactions d) as [|row rest] eqn:Erows; [done|].
  assert (Hrow : row ∈ row :: rest) by (by left).
  assert (Hitem : row !!! 1%nat = idr !!! 0%nat).
  { pose proof (Hin row 1%nat Hrow ltac:(lia)) as [H1 H2]. simpl in H1. lia. }
  assert (Hnrow : ∀ f t, get_random_negative_row f idr row t = None).
  { intros f t. unfold get_random_negative_row. case_decide; [|done].
    destruct (length idr) as [|[|n]] eqn:El; [lia..|].
    cbn [Nat.sub seq redraw_columns]. rewrite Hone, Hitem.
    by rewrite draw_other_single. }
  assert (Hsample : ∀ f b t, sample_negative_row f b container idr row t = None).
  { intros f b t. destruct f as [|f]; [done|]. simpl. by rewrite Hnrow. }
  destruct (Z.to_nat num) as [|k] eqn:Ek; [lia|].
  cbn [fill_negatives get_random_negative_rows]. by rewrite Hsample.
Qed.

Lemma add_negative_sampling_single_item_witness :
  add_negative_sampling 9 context_links 1 single_item_table context_tape = None.
Proof.
  apply (add_negative_sampling_single_item 9 context_links 1 single_item_table
           [2; 3] context_tape).
  - split; [simpl; lia|repeat constructor].
  - apply normalized_intro; [reflexivity..|].
    repeat constructor; unfold in_subrange; simpl; lia.
  - discriminate.
  - reflexivity.
  - lia.
Defined.

(** ** Test-set extraction: nothing lost, enough kept *)

Lemma extract_test_dataset_unfold num mk d :
  well_formed d →
  ∃ d0, ensure_normalized d = Some d0 ∧ well_formed d0 ∧
        extract_test_dataset num mk d =
          Some (mkDataset (shape1 d0)
                  (np_index (extracted_indices num mk d0) (interactions d0))
                  (idrange d0),
                mkDataset (shape1 d0)
                  (np_delete (extracted_indices num mk d0) 0 (interactions d0))
                  (idrange d0)).
Proof.
  intros Hwf.
  destruct (ensure_normalized_some d Hwf) as (d0 & Hd0 & Hw & Hwf0).
  exists d0. split; [done|]. split; [done|].
  unfold extract_test_dataset. rewrite Hd0. cbn [mbind option_bind].
  fold (extracted_indices num mk d0). unfold Dataset_init.
  destruct Hwf0 as [H2 _].
  rewrite (decide_False (P := shape1 d0 = 2%nat)) by lia.
  by rewrite decide_True by lia.
Qed.

Lemma positives_NoDup rows u n : NoDup (positives rows u n).
Proof. unfold positives. apply NoDup_filter, NoDup_seq. Qed.

Lemma positives_label rows u n i : i ∈ positives rows u n → 0 < label (rows !!! i).
Proof. unfold positives. rewrite list_elem_of_filter. tauto. Qed.

Lemma user_extract_sublist num mk l : user_extract num mk l `sublist_of` l.
Proof.
  unfold user_extract, slice_last. repeat case_decide.
  - apply sublist_nil_l.
  - done.
  - apply sublist_drop.
Qed.

Lemma extracted_rows_elem num mk dict i :
  i ∈ extracted_rows num mk dict ↔
  ∃ k l, (k, l) ∈ dict ∧ i ∈ user_extract num mk l.
Proof.
  unfold extracted_rows. rewrite list_elem_of_bind. split.
  - intros ([k l] & Hi & Hkl). by exists k, l.
  - intros (k & l & Hkl & Hi). by exists (k, l).
Qed.

Lemma extracted_rows_NoDup rows n num mk dict :
  NoDup dict.*1 →
  Forall (λ e, e.2 = positives rows e.1 n) dict →
  NoDup (extracted_rows num mk dict).
Proof.
  induction dict as [|[k l] dict IH]; intros Hnd Hall; [apply NoDup_nil_2|].
  apply NoDup_cons in Hnd as [Hk Hnd]. apply Forall_cons in Hall as [Hl Hall].
  simpl in Hl. rewrite extracted_rows_cons. apply NoDup_app.
  split; [|split; [|by apply IH]].
  - apply (sublist_NoDup _ l); [|apply user_extract_sublist].
    rewrite Hl. apply positives_NoDup.
  - intros i Hi%user_extract_subset Hi2. rewrite Hl in Hi.
    apply positives_user in Hi as [Hu _].
    apply extracted_rows_elem in Hi2 as (k2 & l2 & Hkl2 & Hi2%user_extract_subset).
    rewrite Forall_forall in Hall. pose proof (Hall _ Hkl2) as Hl2.
    simpl in Hl2. rewrite Hl2 in Hi2.
    apply positives_user in Hi2 as [Hu2 _].
    apply Hk. apply (list_elem_of_fmap_2 fst) in Hkl2. simpl in Hkl2.
    by replace k with k2 by congruence.
Qed.

(** The indices that are moved: no index twice, each one of a row with a
    positive label. *)
Lemma extracted_indices_spec num mk d0 :
  NoDup (extracted_indices num mk d0) ∧
  ∀ i, i ∈ extracted_indices num mk d0 →
       (i < length (interactions d0))%nat ∧ 0 < label (interactions d0 !!! i).
Proof.
  unfold extracted_indices.
  destruct (rows_by_user_spec [] (interactions d0) []) as [Hnd Hget];
    [apply NoDup_nil_2|done|]. simpl in Hnd, Hget.
  assert (Hall : Forall (λ e, e.2 = positives (interactions d0) e.1
                                      (length (interactions d0)))
                   (rows_by_user (interactions d0) 0 [])).
  { apply Forall_forall. intros [k l] Hkl. simpl.
    by rewrite <- Hget, (dict_get_entry _ k l Hnd Hkl). }
  split; [by eapply extracted_rows_NoDup|].
  intros i (k & l & Hkl & Hi%user_extract_subset)%extracted_rows_elem.
  rewrite Forall_forall in Hall. pose proof (Hall _ Hkl) as Hl.
  simpl in Hl. rewrite Hl in Hi.
  split; [by apply positives_user in Hi as [_ ?]|by eapply positives_label].
Qed.

Lemma eq_reflexivity_perm {A} (l k : list A) : l = k → l ≡ₚ k.
Proof. by intros ->. Qed.

Lemma fmap_lookup_total_seq (rows : list (list Z)) :
  (λ i, rows !!! i) <$> seq 0 (length rows) = rows.
Proof.
  apply list_eq. intros i. rewrite list_lookup_fmap.
  destruct (decide (i < length rows)%nat) as [Hi|Hi].
  - rewrite lookup_seq_lt by done. simpl.
    by rewrite list_lookup_lookup_total_lt.
  - rewrite lookup_seq_ge by lia. simpl. symmetry. apply lookup_ge_None_2. lia.
Qed.

(** X9: [extract_test_dataset] splits the table: the rows of the test set
    and the rows left in the original are, together, the rows the table had,
    none lost and none twice; every row of the test set has a positive
    label; both tables keep the columns and the [idrange]. *)
Theorem extract_test_dataset_partition (num min_keep : nat) (d : Dataset) :
  well_formed d →
  ∃ d0 testset trainset,
    ensure_normalized d = Some d0 ∧
    extract_test_dataset num min_keep d = Some (testset, trainset) ∧
    interactions testset ++ interactions trainset ≡ₚ interactions d0 ∧
    (∀ r, r ∈ interactions testset → 0 < label r) ∧
    well_formed testset ∧ well_formed trainset ∧
    idrange testset = idrange d0 ∧ idrange trainset = idrange d0.
Proof.
  intros Hwf.
  destruct (extract_test_dataset_unfold num min_keep d Hwf)
    as (d0 & Hd0 & Hwf0 & Hrun).
  destruct (extracted_indices_spec num min_keep d0) as [Hnd Hidx].
  set (idxs := extracted_indices num min_keep d0) in *.
  eexists d0, _, _. split; [done|]. split; [exact Hrun|]. simpl.
  assert (Hperm : np_index idxs (interactions d0) ++ np_delete idxs 0 (interactions d0)
                  ≡ₚ interactions d0).
  { pose proof (np_delete_spec idxs [] (interactions d0)) as Hdel.
    simpl in Hdel. rewrite Hdel. unfold np_index.
    rewrite <- fmap_app.
    etrans; [|apply eq_reflexivity_perm, (fmap_lookup_total_seq (interactions d0))].
    apply fmap_Permutation. apply NoDup_Permutation.
    - apply NoDup_app. split; [done|]. split; [|apply NoDup_filter, NoDup_seq].
      intros i Hi. rewrite list_elem_of_filter. tauto.
    - apply NoDup_seq.
    - intros i. rewrite elem_of_app, list_elem_of_filter, elem_of_seq.
      split.
      + intros [Hi|[_ Hi]]; [|lia]. apply Hidx in Hi. lia.
      + intros Hi. destruct (decide (i ∈ idxs)); [by left|by right]. }
  assert (Hsub : ∀ r, r ∈ np_index idxs (interactions d0) ++
                          np_delete idxs 0 (interactions d0) →
                      r ∈ interactions d0).
  { intros r Hr. by rewrite Hperm in Hr. }
  destruct Hwf0 as [H2 Hrect].
  split; [done|]. split; [|split; [|split; [|done]]].
  - intros r Hr. unfold np_index in Hr.
    apply list_elem_of_fmap in Hr as (i & -> & Hi). by apply Hidx.
  - split; [done|]. unfold rectangular. simpl. apply Forall_forall.
    intros r Hr. apply (rectangular_row d0); [done|].
    apply Hsub, elem_of_app. by left.
  - split; [done|]. unfold rectangular. simpl. apply Forall_forall.
    intros r Hr. apply (rectangular_row d0); [done|].
    apply Hsub, elem_of_app. by right.
Qed.

Lemma extract_test_dataset_partition_witness :
  ∃ d0 testset trainset,
    ensure_normalized history_table = Some d0 ∧
    extract_test_dataset 1 1 history_table = Some (testset, trainset) ∧
    interactions testset ++ interactions trainset ≡ₚ interactions d0 ∧
    (∀ r, r ∈ interactions testset → 0 < label r) ∧
    well_formed testset ∧ well_formed trainset ∧
    idrange testset = idrange d0 ∧ idrange trainset = idrange d0.
Proof.
  apply (extract_test_dataset_partition 1 1 history_table).
  split; [simpl; lia|repeat constructor].
Defined.





(** The run behind the last example: the rows 0, 2 and 5 of user 0 and the
    rows 1 and 6 of user 1 all go. *)
Example extract_test_dataset_history_zero :
  (λ p, (interactions p.1, interactions p.2))
    <$> extract_test_dataset 0 2 history_table =
  Some ([[0; 3; 1]; [0; 4; 1]; [0; 5; 1]; [1; 3; 1]; [1; 4; 1]],
        [[0; 5; 0]; [2; 4; 1]]).
Proof. by vm_compute. Qed.

(** ** The adjacency matrix and the degrees read from it *)

(** The entries of the matrix of a normalised table. *)
Lemma create_adjacency_matrix_entries d idr :
  well_formed d → normalized d idr →
  ∃ m, create_adjacency_matrix d = Some (m, d) ∧
       mrows m = idr !!! 1%nat ∧ mcols m = idr !!! 1%nat ∧
       ∀ a b, mget m a b = if decide (linked (interactions d) a b) then 1 else 0.
Proof.
  intros [Hw Hrect] (Hidr & Hlen & Hin).
  unfold create_adjacency_matrix, ensure_normalized.
  rewrite Hidr. cbn [mbind option_bind]. rewrite Hidr. cbn [mbind option_bind].
  destruct (lookup_lt_is_Some_2 idr 1) as [size Hsize]; [lia|].
  rewrite Hsize. cbn [mbind option_bind].
  rewrite (list_lookup_total_correct _ _ _ Hsize).
  destruct (fill_matrix_spec (interactions d) (mkMatrix size size ∅))
    as (m & Hm & Hr & Hc & Hget).
  { apply Forall_forall. intros r Hr. simpl.
    pose proof (Hin r 0%nat Hr ltac:(lia)) as H0.
    pose proof (Hin r 1%nat Hr ltac:(lia)) as H1.
    unfold in_subrange in H0, H1. simpl in H0, H1.
    rewrite (list_lookup_total_correct _ _ _ Hsize) in H1. lia. }
  rewrite Hm. cbn [mbind option_bind]. exists m.
  split; [done|]. split; [done|]. split; [done|].
  intros a b. rewrite Hget. by case_decide.
Qed.

(** X12: the adjacency matrix of a normalised table joins users to items
    only: a non-zero entry has a user id on one side and an item id on the
    other, so the diagonal is zero and no two users and no two items are
    joined. *)
Theorem create_adjacency_matrix_bipartite (d : Dataset) (idr : list Z) :
  well_formed d → normalized d idr →
  ∃ m, create_adjacency_matrix d = Some (m, d) ∧
       (∀ a b, mget m a b ≠ 0 →
          (in_subrange idr 0 a ∧ in_subrange idr 1 b) ∨
          (in_subrange idr 1 a ∧ in_subrange idr 0 b)) ∧
       (∀ a, mget m a a = 0).
Proof.
  intros Hwf Hnorm.
  destruct (create_adjacency_matrix_entries d idr Hwf Hnorm)
    as (m & Hm & _ & _ & Hget).
  destruct Hwf as [Hw _]. destruct Hnorm as (Hidr & Hlen & Hin).
  exists m. split; [done|].
  assert (Hside : ∀ a b, mget m a b ≠ 0 →
            (in_subrange idr 0 a ∧ in_subrange idr 1 b) ∨
            (in_subrange idr 1 a ∧ in_subrange idr 0 b)).
  { intros a b Hab. rewrite Hget in Hab. case_decide as Hl; [|done].
    unfold linked in Hl. apply Exists_exists in Hl as (r & Hr & Hlinks).
    pose proof (Hin r 0%nat Hr ltac:(lia)) as H0.
    pose proof (Hin r 1%nat Hr ltac:(lia)) as H1.
    destruct Hlinks as [[-> ->]|[-> ->]]; [by left|by right]. }
  split; [done|].
  intros a. destruct (decide (mget m a a = 0)) as [|Hne]; [done|].
  exfalso. unfold in_subrange in Hside. simpl in Hside.
  destruct (Hside a a Hne) as [[H0 H1]|[H1 H0]]; lia.
Qed.

Lemma create_adjacency_matrix_bipartite_witness :
  ∃ m, create_adjacency_matrix context_table = Some (m, context_table) ∧
       (∀ a b, mget m a b ≠ 0 →
          (in_subrange [2; 4; 6] 0 a ∧ in_subrange [2; 4; 6] 1 b) ∨
          (in_subrange [2; 4; 6] 1 a ∧ in_subrange [2; 4; 6] 0 b)) ∧
       (∀ a, mget m a a = 0).
Proof.
  apply (create_adjacency_matrix_bipartite context_table [2; 4; 6]).
  - split; [simpl; lia|repeat constructor].
  - apply normalized_intro; [reflexivity..|].
    repeat constructor; unfold in_subrange; simpl; lia.
Defined.

Lemma sum_nonneg (f : Z → Z) (l : list Z) :
  (∀ x, x ∈ l → 0 ≤ f x) → 0 ≤ foldr Z.add 0 (f <$> l).
Proof.
  induction l as [|x l IH]; intros Hpos; [done|]. rewrite fmap_cons. simpl.
  pose proof (Hpos x ltac:(by left)).
  assert (0 ≤ foldr Z.add 0 (f <$> l)); [|lia].
  apply IH. intros z Hz. apply Hpos. by right.
Qed.

Lemma sum_ge_term (f : Z → Z) (l : list Z) a :
  (∀ x, x ∈ l → 0 ≤ f x) → a ∈ l → f a ≤ foldr Z.add 0 (f <$> l).
Proof.
  induction l as [|x l IH]; intros Hpos Ha; [by apply elem_of_nil in Ha|].
  assert (Hrest : 0 ≤ foldr Z.add 0 (f <$> l)).
  { apply sum_nonneg. intros z Hz. apply Hpos. by right. }
  rewrite fmap_cons. simpl. apply elem_of_cons in Ha as [->|Ha]; [lia|].
  pose proof (Hpos x ltac:(by left)).
  assert (f a ≤ foldr Z.add 0 (f <$> l)); [|lia].
  apply IH; [|done]. intros z Hz. apply Hpos. by right.
Qed.

Lemma ensure_normalized_fixed d idr :
  idrange d = Some idr → ensure_normalized d = Some d.
Proof. intros H. unfold ensure_normalized. by rewrite H. Qed.

(** X13: measured on the adjacency matrix built from the table itself, every
    user and every item of a normalised table has degree at least 1, so
    [remove_low_users] and [remove_low_items] with [lim = 0] drop no row. *)
Theorem remove_low_fresh_matrix (d : Dataset) (idr : list Z) :
  well_formed d → normalized d idr →
  ∃ m, create_adjacency_matrix d = Some (m, d) ∧
       (∀ r, r ∈ interactions d → 1 ≤ degree m 0 r ∧ 1 ≤ degree m 1 r) ∧
       remove_low_users m 0 d = Some (0%nat, d) ∧
       remove_low_items m 0 d = Some (0%nat, d).
Proof.
  intros Hwf Hnorm.
  destruct (create_adjacency_matrix_entries d idr Hwf Hnorm)
    as (m & Hm & Hmr & Hmc & Hget).
  pose proof Hwf as [Hw _]. pose proof Hnorm as (Hidr & Hlen & Hin).
  exists m. split; [done|].
  assert (Hrange : ∀ r, r ∈ interactions d →
            0 ≤ r !!! 0%nat < idr !!! 1%nat ∧ 0 ≤ r !!! 1%nat < idr !!! 1%nat).
  { intros r Hr.
    pose proof (Hin r 0%nat Hr ltac:(lia)) as H0.
    pose proof (Hin r 1%nat Hr ltac:(lia)) as H1.
    unfold in_subrange in H0, H1. simpl in H0, H1. lia. }
  assert (Hdeg : ∀ r, r ∈ interactions d → 1 ≤ degree m 0 r ∧ 1 ≤ degree m 1 r).
  { intros r Hr. destruct (Hrange r Hr) as [Hu Hi].
    assert (Hnn : ∀ j x, x ∈ seqZ 0 (mrows m) → 0 ≤ mget m x j).
    { intros j x _. rewrite Hget. case_decide; lia. }
    assert (Hlink : linked (interactions d) (r !!! 1%nat) (r !!! 0%nat)).
    { apply Exists_exists. exists r. split; [done|]. by right. }
    unfold degree, column_sum. split.
    - etrans; [|apply (sum_ge_term (λ i, mget m i (r !!! 0%nat)) _ (r !!! 1%nat))].
      + simpl. rewrite Hget. by rewrite decide_True.
      + apply Hnn.
      + apply elem_of_seqZ. lia.
    - etrans; [|apply (sum_ge_term (λ i, mget m i (r !!! 1%nat)) _ (r !!! 0%nat))].
      + simpl. rewrite Hget. rewrite decide_True; [done|]. by apply linked_sym.
      + apply Hnn.
      + apply elem_of_seqZ. lia. }
  split; [done|].
  assert (Hrun : ∀ idx, (idx < 2)%nat → remove_low_idx m 0 idx d = Some (0%nat, d)).
  { intros idx Hidx.
    destruct (remove_low_idx_spec m 0 idx d d (ensure_normalized_fixed d idr Hidr))
      as (n & d' & Hrun & Hrows & Hcount & Hs & Hi).
    { apply Forall_forall. intros r Hr. destruct (Hrange r Hr).
      destruct idx as [|[|idx]]; [lia..|lia]. }
    rewrite filter_all in Hrows.
    - rewrite Hrun. f_equal. f_equal; [rewrite Hrows in Hcount; lia|].
      destruct d, d'. simpl in *. congruence.
    - apply Forall_forall. intros r Hr. destruct (Hdeg r Hr).
      destruct idx as [|[|idx]]; [lia..|lia]. }
  split; apply Hrun; lia.
Qed.

Lemma remove_low_fresh_matrix_witness :
  ∃ m, create_adjacency_matrix history_table = Some (m, history_table) ∧
       (∀ r, r ∈ interactions history_table →
             1 ≤ degree m 0 r ∧ 1 ≤ degree m 1 r) ∧
       remove_low_users m 0 history_table = Some (0%nat, history_table) ∧
       remove_low_items m 0 history_table = Some (0%nat, history_table).
Proof.
  apply (remove_low_fresh_matrix history_table [3; 6]).
  - split; [simpl; lia|repeat constructor].
  - apply normalized_intro; [reflexivity..|].
    repeat constructor; unfold in_subrange; simpl; lia.
Defined.




(** ** Reusing a mapping, and normalising on demand *)

Lemma normalize_columns_idrange_indep m i diff rows rows2 idr :
  (normalize_columns m i diff rows idr).2 = (normalize_columns m i diff rows2 idr).2.
Proof.
  revert i diff rows rows2 idr.
  induction m as [|c m IH]; intros i diff rows rows2 idr; simpl; [done|].
  apply IH.
Qed.

(** X15: the mapping [normalize_ids()] returns can be given to
    [normalize_ids] of another table made of rows of the first one, in any
    order: every row gets the ids it has in the first table, no row is
    dropped, and [idrange] is the same. *)
Theorem normalize_ids_with_returned_mapping (rm rm2 : bool) (d : Dataset)
    (idxs : list nat) :
  well_formed d →
  Forall (λ i, (i < length (interactions d))%nat) idxs →
  ∃ d' m,
    normalize_ids None rm d = Some (d', m) ∧
    normalize_ids (Some m) rm2
      (mkDataset (shape1 d) (np_index idxs (interactions d)) None) =
    Some (mkDataset (shape1 d) (np_index idxs (interactions d')) (idrange d'), m).
Proof.
  intros Hwf Hidxs.
  destruct (normalize_ids_derived rm d Hwf) as (idr & Hn & Hlen & Hidr).
  eexists _, _. split; [exact Hn|]. simpl.
  unfold normalize_ids at 1. simpl.
  rewrite decide_True by (rewrite derive_mapping_length; destruct Hwf; lia).
  cbn [mbind option_bind].
  destruct (normalize_columns _ _ _ (np_index _ _) _) as [rows2 idr2] eqn:E.
  assert (Hrows2 : rows2 = np_index idxs
                     (normalize_row (derive_mapping d) 0 0 <$> interactions d)).
  { transitivity (normalize_row (derive_mapping d) 0 0
                    <$> np_index idxs (interactions d)).
    - rewrite <- normalize_columns_rows
        with (idr := replicate (length (derive_mapping d)) 0). by rewrite E.
    - unfold np_index. rewrite <- list_fmap_compose.
      apply Forall_fmap_ext_1. eapply Forall_impl; [exact Hidxs|].
      intros i Hi. simpl.
      by rewrite (list_lookup_total_fmap (normalize_row (derive_mapping d) 0 0)
                    (interactions d) i Hi). }
  assert (Hidr2 : idr2 = idr).
  { assert (Hn2 := Hn). unfold normalize_ids in Hn2. simpl in Hn2.
    destruct (normalize_columns _ _ _ (interactions d) _) as [rows1 idr1] eqn:E1.
    injection Hn2 as _ <-.
    change idr2 with (rows2, idr2).2. change idr1 with (rows1, idr1).2.
    rewrite <- E, <- E1. apply normalize_columns_idrange_indep. }
  do 3 f_equal; [|by rewrite Hidr2].
  rewrite Hrows2. destruct rm2; [|done].
  apply filter_all, Forall_forall. intros r' Hr'. unfold np_index in Hr'.
  apply list_elem_of_fmap in Hr' as (i & -> & Hi).
  rewrite Forall_forall in Hidxs.
  rewrite (list_lookup_total_fmap (normalize_row (derive_mapping d) 0 0)
             (interactions d) i (Hidxs i Hi)).
  apply normalize_derived_keeps; [done|].
  apply list_elem_of_lookup_total_2. by apply Hidxs.
Qed.

Lemma normalize_ids_with_returned_mapping_witness :
  ∃ d' m,
    normalize_ids None true raw_table = Some (d', m) ∧
    normalize_ids (Some m) true
      (mkDataset (shape1 raw_table)
         (np_index [2; 0]%nat (interactions raw_table)) None) =
    Some (mkDataset (shape1 raw_table) (np_index [2; 0]%nat (interactions d'))
            (idrange d'), m).
Proof.
  apply (normalize_ids_with_returned_mapping true true raw_table [2; 0]%nat).
  - split; [simpl; lia|repeat constructor].
  - repeat constructor; simpl; lia.
Defined.

(** X16: on a table that is not normalised yet, [create_adjacency_matrix()]
    normalises it first, as [normalize_ids()] would, and returns the matrix of
    the normalised table: square of size [idrange[1]], with a 1 exactly at
    the user/item pairs of the normalised rows, in both orders. *)
Theorem create_adjacency_matrix_normalizes (d : Dataset) :
  well_formed d → idrange d = None →
  ∃ d' mapping idr m,
    normalize_ids None true d = Some (d', mapping) ∧
    idrange d' = Some idr ∧
    create_adjacency_matrix d = Some (m, d') ∧
    mrows m = idr !!! 1%nat ∧ mcols m = idr !!! 1%nat ∧
    ∀ a b, mget m a b = if decide (linked (interactions d') a b) then 1 else 0.
Proof.
  intros Hwf Hnone.
  destruct (normalize_ids_normalized true d Hwf)
    as (d' & idr & Hn & Hw & Hrows & Hnorm & _).
  destruct (normalize_ids_well_formed true d d' _ Hwf Hn) as [Hwf' _].
  destruct (create_adjacency_matrix_entries d' idr Hwf' Hnorm)
    as (m & Hm & Hmr & Hmc & Hget).
  exists d', (derive_mapping d), idr, m.
  split; [done|]. split; [apply Hnorm|]. split; [|done].
  unfold create_adjacency_matrix, ensure_normalized in *.
  rewrite Hnone, Hn. simpl.
  destruct Hnorm as (Hidr & _). rewrite Hidr in Hm. simpl in Hm. done.
Qed.

Lemma create_adjacency_matrix_normalizes_witness :
  ∃ d' mapping idr m,
    normalize_ids None true raw_table = Some (d', mapping) ∧
    idrange d' = Some idr ∧
    create_adjacency_matrix raw_table = Some (m, d') ∧
    mrows m = idr !!! 1%nat ∧ mcols m = idr !!! 1%nat ∧
    ∀ a b, mget m a b = if decide (linked (interactions d') a b) then 1 else 0.
Proof.
  apply (create_adjacency_matrix_normalizes raw_table).
  - split; [simpl; lia|repeat constructor].
  - reflexivity.
Defined.

(** ** The earlier dataset class *)











(** X18: the loop of the earlier [get_random_negative_item] cannot end when
    every item id is the item itself or is in the container with the user
    (the case its TODO warns of): no draw is ever accepted. *)
Theorem get_random_negative_item_no_candidate (fuel : nat)
    (d : DatasetPy.Dataset) (user item : Z) (container : Z * Z → bool)
    (tape : list Z) :
  (∀ j, (DatasetPy.idsize d).1 ≤ j < (DatasetPy.idsize d).2 →
        j = item ∨ container (user, j) = true) →
  DatasetPy.get_random_negative_item fuel d user item container tape = None.
Proof.
  intros Hall.
  assert (Hloop : ∀ f j t, (DatasetPy.idsize d).1 ≤ j < (DatasetPy.idsize d).2 →
            DatasetPy.negative_item_loop f d user item container j t = None).
  { induction f as [|f IH]; intros j t Hj; simpl; [done|].
    assert (bool_decide (j = item) || container (user, j) = true) as ->.
    { destruct (Hall j Hj) as [-> | ->].
      - by rewrite bool_decide_true.
      - apply orb_true_r. }
    destruct (randint _ _ t) as [[j1 t1]|] eqn:Er; simpl; [|done].
    apply IH. by eapply randint_range. }
  unfold DatasetPy.get_random_negative_item.
  destruct (randint _ _ tape) as [[j1 tape1]|] eqn:Er; simpl; [|done].
  apply Hloop. by eapply randint_range.
Qed.

Lemma get_random_negative_item_no_candidate_witness :
  DatasetPy.get_random_negative_item 9 crowded_table 0 1 crowded_links
    shifted_tape = None.
Proof.
  apply (get_random_negative_item_no_candidate 9 crowded_table 0 1 crowded_links
           shifted_tape).
  intros j Hj. simpl in Hj.
  assert (j = 1 ∨ j = 2) as [-> | ->] by lia; [by left|by right].
Defined.







(** The shifted table of the examples is what [__init__] builds. *)
Example DatasetPy_init_shifted_rows :
  DatasetPy.init 4 shifted_rows None = Some shifted_table.
Proof. by vm_compute. Qed.
